(** * mmv: shallow embedding of the pattern engine of [mmv_lib]

    Modules embedded (from [lib/src]):
    - [glob_star_pattern.rs]:        [GlobStarPattern::from], [wildcards_number],
                                     [match_string], [Display];
    - [destination_path_template.rs]: [DestinationPathTemplate::compile],
                                     [substitute];
    - [source_path_pattern.rs]:      [FromStr], [Display], [matching_files].

    Rust strings are UTF-8 byte sequences and every index used by the code
    ([find], [split_at], slicing) is a byte offset, so strings are modelled as
    lists of bytes ([list ascii], [ascii] being an 8-bit byte).  A Rust panic
    (out-of-range index, [unwrap] of [None], usize underflow, failed
    [debug_assert]) is the [Panic] outcome of the [outcome] monad below. *)

From Stdlib Require Import List Ascii String Bool Arith Lia.
Import ListNotations.

Open Scope list_scope.

(** ** Basic machinery *)

Definition str := list ascii.
Definition path := list ascii.

(** String literals as byte lists. *)
Definition lit (s : string) : str := list_ascii_of_string s.

Definition slash : ascii := "/"%char.
Definition star : ascii := "*"%char.
Definition hash : ascii := "#"%char.

(** Outcome of a Rust computation: a returned value, or a panic. *)
Inductive outcome (A : Type) : Type :=
| Ret : A -> outcome A
| Panic : outcome A.
Arguments Ret {A} _.
Arguments Panic {A}.

Definition obind {A B} (m : outcome A) (f : A -> outcome B) : outcome B :=
  match m with
  | Ret a => f a
  | Panic => Panic
  end.

Notation "x <- m ;; f" := (obind m (fun x => f))
  (at level 61, m at next level, right associativity).

(** [v[i]]: panics out of range. *)
Definition index {A} (l : list A) (i : nat) : outcome A :=
  match nth_error l i with
  | Some x => Ret x
  | None => Panic
  end.

(** [Option::unwrap]. *)
Definition unwrap {A} (o : option A) : outcome A :=
  match o with
  | Some x => Ret x
  | None => Panic
  end.

(** Rust's [Result]. *)
Inductive result (A E : Type) : Type :=
| Ok : A -> result A E
| Err : E -> result A E.
Arguments Ok {A E} _.
Arguments Err {A E} _.

Definition ascii_eqb (a b : ascii) : bool :=
  if ascii_dec a b then true else false.

(** [p.is_prefix_of(s)] / [s.starts_with(p)]. *)
Fixpoint is_prefix (p s : str) : bool :=
  match p, s with
  | [], _ => true
  | a :: p', b :: s' => ascii_eqb a b && is_prefix p' s'
  | _ :: _, [] => false
  end.

(** [p.strip_prefix_of(s)]: [s] without the prefix [p]. *)
Fixpoint strip_prefix (p s : str) : option str :=
  match p, s with
  | [], _ => Some s
  | a :: p', b :: s' => if ascii_eqb a b then strip_prefix p' s' else None
  | _ :: _, [] => None
  end.

(** [p.strip_suffix_of(s)]: [s] without the suffix [p]. *)
Definition strip_suffix (p s : str) : option str :=
  match strip_prefix (rev p) (rev s) with
  | Some r => Some (rev r)
  | None => None
  end.

(** [s.find(p)]: byte offset of the first (leftmost) occurrence of [p] in
    [s]; the empty pattern is found at offset 0. *)
Fixpoint find (p s : str) : option nat :=
  if is_prefix p s then Some 0
  else match s with
       | [] => None
       | _ :: s' => option_map S (find p s')
       end.

(** [s.rfind(c)] for a character pattern: offset of the last occurrence. *)
Fixpoint rfind (c : ascii) (s : str) : option nat :=
  match s with
  | [] => None
  | x :: s' =>
      match rfind c s' with
      | Some k => Some (S k)
      | None => if ascii_eqb x c then Some 0 else None
      end
  end.

(** [s.split_at(s.rfind('/').map_or(0, |i| i + 1))]: directory part (up to
    and including the last ['/']) and filename part; shared by
    [DestinationPathTemplate::compile] and [SourcePathPattern::from_str]. *)
Definition split_last_slash (s : str) : str * str :=
  let i := match rfind slash s with
           | Some k => k + 1
           | None => 0
           end in
  (firstn i s, skipn i s).

(** [s.split(c)]: never empty; [""] splits into [[""]]. *)
Fixpoint split (c : ascii) (s : str) : list str :=
  match s with
  | [] => [[]]
  | x :: s' =>
      let parts := split c s' in
      if ascii_eqb x c then [] :: parts
      else match parts with
           | p :: ps => (x :: p) :: ps
           | [] => [[x]]
           end
  end.

(** [blocks.join(sep)]. *)
Fixpoint join (sep : str) (bs : list str) : str :=
  match bs with
  | [] => []
  | [b] => b
  | b :: bs' => b ++ sep ++ join sep bs'
  end.

(** ** [glob_star_pattern.rs] *)

Record GlobStarPattern := mkGlob { literal_blocks : list str }.

(** [impl From<&str> for GlobStarPattern]. *)
Definition glob_from (s : str) : GlobStarPattern :=
  mkGlob (split star s).

(** [impl Display for GlobStarPattern]. *)
Definition glob_display (p : GlobStarPattern) : str :=
  join [star] (literal_blocks p).

(** [wildcards_number]: [self.literal_blocks.len() - 1]; the usize
    subtraction panics on underflow. *)
Definition wildcards_number (p : GlobStarPattern) : outcome nat :=
  match List.length (literal_blocks p) with
  | 0 => Panic
  | S n => Ret n
  end.

(** The loop of [match_string] over the middle blocks
    ([literal_blocks.iter().skip(1).take(wildcards_number() - 1)]): each
    block is searched with [find]; the text before it is captured and the
    remaining text advances past it.  [None] is the early return of [?]. *)
Fixpoint match_middle (blocks : list str) (string : str) : option (list str * str) :=
  match blocks with
  | [] => Some ([], string)
  | block :: blocks' =>
      match find block string with
      | None => None
      | Some block_match_begin =>
          let fragment := firstn block_match_begin string in
          let string' := skipn (block_match_begin + List.length block) string in
          match match_middle blocks' string' with
          | None => None
          | Some (result, rest) => Some (fragment :: result, rest)
          end
      end
  end.

(** [slice.last()]. *)
Fixpoint last_error {A} (l : list A) : option A :=
  match l with
  | [] => None
  | [x] => Some x
  | _ :: l' => last_error l'
  end.

Definition is_empty (s : str) : bool :=
  match s with [] => true | _ => false end.

(** [Vec::is_empty]. *)
Definition is_empty_list {A} (l : list A) : bool :=
  match l with [] => true | _ => false end.

(** [GlobStarPattern::match_string]. *)
Definition match_string (p : GlobStarPattern) (string : str)
  : outcome (option (list str)) :=
  first <- index (literal_blocks p) 0 ;;
  match strip_prefix first string with
  | None => Ret None
  | Some string =>
      n <- wildcards_number p ;;
      if n =? 0 then Ret (if is_empty string then Some [] else None)
      else
        match match_middle (firstn (n - 1) (skipn 1 (literal_blocks p))) string with
        | None => Ret None
        | Some (result, string) =>
            lastb <- unwrap (last_error (literal_blocks p)) ;;
            match strip_suffix lastb string with
            | None => Ret None
            | Some fragment =>
                let result := result ++ [fragment] in
                (* debug_assert_eq!(result.len(), self.wildcards_number()) *)
                if List.length result =? n then Ret (Some result) else Panic
            end
        end
  end.

(** ** Paths *)

(** [Path::is_absolute] on Unix: the path has a root. *)
Definition is_absolute (p : path) : bool :=
  match p with
  | c :: _ => ascii_eqb c slash
  | [] => false
  end.

(** [base.join(p)] ([PathBuf::push] on Unix): an absolute [p] replaces
    [base]; otherwise a separator is inserted when [base] is non-empty and
    does not already end with one. *)
Definition path_join (base p : path) : path :=
  if is_absolute p then p
  else match last_error base with
       | Some c => if ascii_eqb c slash then base ++ p else base ++ [slash] ++ p
       | None => p
       end.

(** ** [destination_path_template.rs] *)

(** [u8::to_string]: decimal digits of [n]. *)
Fixpoint dec_aux (fuel n : nat) (acc : str) : str :=
  match fuel with
  | 0 => acc
  | S f =>
      let acc' := ascii_of_nat (48 + n mod 10) :: acc in
      if n <? 10 then acc' else dec_aux f (n / 10) acc'
  end.

Definition dec (n : nat) : str := dec_aux (S n) n [].

Record DestinationPathTemplate := mkDPT {
  directory : path;
  markers : list nat;          (* Vec<u8> *)
  dlit_blocks : list str       (* literal_blocks *)
}.

(** The inner [for marker_index in (1..=max_marker_index).rev()] loop: the
    first (hence largest) index whose decimal string is a prefix of [s]. *)
Fixpoint first_marker (max_marker_index : nat) (s : str) : option nat :=
  match max_marker_index with
  | 0 => None
  | S k =>
      if is_prefix (dec (S k)) s then Some (S k) else first_marker k s
  end.

(** Local variables of [compile] threaded through the ['find_marker] loop. *)
Record cstate := mkC {
  filename_remainder : str;
  current_offset_in_filename : nat;
  cmarkers : list nat;
  cblocks : list str
}.

(** One iteration of [while let Some(hashtag_position) =
    &filename_remainder[current_offset_in_filename..].find('#')];
    [None] when the loop condition fails.  Strings are modelled as bytes and
    the slice is [skipn]: the panic of the Rust slice when
    [current_offset_in_filename] is not a UTF-8 character boundary (possible
    after [current_offset_in_filename = hashtag_position + 1], e.g. on
    ["xé#y#"], where the offset reaches 2, inside ['é']) is not modelled.
    The other slices of the loop are at a ['#'] or after ASCII digits, hence
    at boundaries.  On ASCII templates every offset is a boundary, and
    whenever the Rust loop exits normally it visits the same states as this
    model. *)
Definition compile_step (max_marker_index : nat) (st : cstate) : option cstate :=
  let rem := filename_remainder st in
  let cur := current_offset_in_filename st in
  match find [hash] (skipn cur rem) with
  | None => None
  | Some hashtag_position =>
      match first_marker max_marker_index (skipn (cur + hashtag_position + 1) rem) with
      | Some marker_index =>
          Some (mkC (skipn (cur + hashtag_position + List.length (dec marker_index) + 1) rem)
                    0
                    (cmarkers st ++ [marker_index])
                    (cblocks st ++ [firstn (cur + hashtag_position) rem]))
      | None =>
          (* current_offset_in_filename = hashtag_position + 1; *)
          Some (mkC rem (hashtag_position + 1) (cmarkers st) (cblocks st))
      end
  end.

(** The loop run with [fuel] iterations at most: [None] when the fuel runs
    out before the loop exits (the loop does not terminate for every input,
    so [compile] is modelled with fuel). *)
Fixpoint compile_loop (fuel max_marker_index : nat) (st : cstate) : option cstate :=
  match fuel with
  | 0 => None
  | S f =>
      match compile_step max_marker_index st with
      | None => Some st
      | Some st' => compile_loop f max_marker_index st'
      end
  end.

(** The part of [compile] after the [split_at]: markers and literal blocks
    of the filename remainder. *)
Definition compile_filename (fuel : nat) (filename : str) (max_marker_index : nat)
  : option (list nat * list str) :=
  match compile_loop fuel max_marker_index (mkC filename 0 [] []) with
  | None => None
  | Some st => Some (cmarkers st, cblocks st ++ [filename_remainder st])
  end.

(** [DestinationPathTemplate::compile], within [fuel] loop iterations. *)
Definition compile (fuel : nat) (path_pattern : str) (max_marker_index : nat)
  : option DestinationPathTemplate :=
  let '(dir, filename) := split_last_slash path_pattern in
  match compile_filename fuel filename max_marker_index with
  | None => None
  | Some (ms, bs) => Some (mkDPT dir ms bs)
  end.

(** The body of the [for] loop of [substitute] over
    [markers.iter().zip(literal_blocks.iter().skip(1))];
    [*marker_index as usize - 1] underflows for marker 0 and indexing past
    [fragments_values] panics. *)
Fixpoint substitute_loop (pairs : list (nat * str)) (fragments_values : list str)
  (result_filename : str) : outcome str :=
  match pairs with
  | [] => Ret result_filename
  | (marker_index, block) :: pairs' =>
      match marker_index with
      | 0 => Panic
      | S i =>
          fragment <- index fragments_values i ;;
          substitute_loop pairs' fragments_values (result_filename ++ fragment ++ block)
      end
  end.

(** [DestinationPathTemplate::substitute]. *)
Definition substitute (t : DestinationPathTemplate) (fragments_values : list str)
  : outcome path :=
  first <- index (dlit_blocks t) 0 ;;
  result_filename <- substitute_loop (combine (markers t) (skipn 1 (dlit_blocks t)))
                                     fragments_values first ;;
  Ret (path_join (directory t) result_filename).

(** ** UTF-8 validity ([OsStr::to_str], [Path::to_str]) *)

Definition in_range (lo hi : nat) (b : ascii) : bool :=
  (lo <=? nat_of_ascii b) && (nat_of_ascii b <=? hi).

Definition cont (b : ascii) : bool := in_range 128 191 b.

(** Well-formed UTF-8 (RFC 3629, Table 3-7 of Unicode): no overlong forms,
    no surrogates, nothing above U+10FFFF. *)
Fixpoint utf8_valid (l : list ascii) : bool :=
  match l with
  | [] => true
  | a :: r =>
      let n := nat_of_ascii a in
      if n <? 128 then utf8_valid r
      else if in_range 194 223 a then
        match r with
        | b1 :: r1 => cont b1 && utf8_valid r1
        | [] => false
        end
      else if in_range 224 239 a then
        match r with
        | b1 :: b2 :: r2 =>
            (if n =? 224 then in_range 160 191 b1
             else if n =? 237 then in_range 128 159 b1
             else cont b1) && cont b2 && utf8_valid r2
        | _ => false
        end
      else if in_range 240 244 a then
        match r with
        | b1 :: b2 :: b3 :: r3 =>
            (if n =? 240 then in_range 144 191 b1
             else if n =? 244 then in_range 128 143 b1
             else cont b1) && cont b2 && cont b3 && utf8_valid r3
        | _ => false
        end
      else false
  end.

(** [to_str]: [Some] exactly on valid UTF-8. *)
Definition to_str (s : list ascii) : option str :=
  if utf8_valid s then Some s else None.

(** ** [source_path_pattern.rs] *)

Record SourcePathPattern := mkSPP {
  sdirectory : path;
  filename_pattern : GlobStarPattern
}.

(** [SourcePathPattern::wildcards_number]. *)
Definition spp_wildcards_number (p : SourcePathPattern) : outcome nat :=
  wildcards_number (filename_pattern p).

Definition contains (c : ascii) (s : str) : bool := existsb (ascii_eqb c) s.

Definition wildcard_error : string := "'*'-wildcard can only appear in a filename".

(** [impl FromStr for SourcePathPattern]. *)
Definition from_str (s : str) : result SourcePathPattern string :=
  let '(directory_str, filename_pattern_str) := split_last_slash s in
  if contains star directory_str then Err wildcard_error
  else Ok (mkSPP directory_str (glob_from filename_pattern_str)).

(** [impl Display for SourcePathPattern]; [None] is [std::fmt::Error]. *)
Definition spp_display (p : SourcePathPattern) : option str :=
  match to_str (sdirectory p) with
  | Some directory_str => Some (directory_str ++ glob_display (filename_pattern p))
  | None => None
  end.

(** The file system as seen by [matching_files]: [read_dir] of a path
    yields the entries ([None] for an [Err] entry of the iterator), or fails
    ([None]); an entry's [metadata()] may fail ([None]). *)
Record Metadata := mkMeta { is_file : bool }.

Record DirEntry := mkEntry {
  file_name : list ascii;        (* OsString: arbitrary bytes *)
  metadata : option Metadata
}.

Definition FileSystem := path -> option (list (option DirEntry)).

(** The [anyhow] errors with their context. *)
Inductive io_error :=
| ReadDirFailed (directory_path : path)
| ReadEntryFailed
| MetadataFailed (entry_path : path).

(** The [for dir_entry in ...] loop of [matching_files], accumulating
    [result]. *)
Fixpoint matching_entries (p : SourcePathPattern) (directory_path : path)
  (entries : list (option DirEntry)) (acc : list (path * list str))
  : outcome (result (list (path * list str)) io_error) :=
  match entries with
  | [] => Ret (Ok acc)
  | None :: _ => Ret (Err ReadEntryFailed)
  | Some entry :: entries' =>
      match metadata entry with
      | None => Ret (Err (MetadataFailed (path_join directory_path (file_name entry))))
      | Some md =>
          if is_file md then
            match to_str (file_name entry) with
            | Some filaname =>
                match_result <- match_string (filename_pattern p) filaname ;;
                match match_result with
                | Some match_info =>
                    matching_entries p directory_path entries'
                      (acc ++ [(path_join (sdirectory p) (file_name entry), match_info)])
                | None => matching_entries p directory_path entries' acc
                end
            | None => matching_entries p directory_path entries' acc
            end
          else matching_entries p directory_path entries' acc
      end
  end.

(** [SourcePathPattern::matching_files]. *)
Definition matching_files (p : SourcePathPattern) (fs : FileSystem)
  (working_directory : path) : outcome (result (list (path * list str)) io_error) :=
  let directory_path := path_join working_directory (sdirectory p) in
  match fs directory_path with
  | None => Ret (Err (ReadDirFailed directory_path))
  | Some entries => matching_entries p directory_path entries []
  end.


(** ** [main.rs]: the computation of the source/destination pairs *)

(** The failures of [main] before any rename. *)
Inductive main_error :=
| TooManyWildcards            (* [try_into::<u8>()] of the wildcard count failed *)
| MatchingFailed (e : io_error)
| NoMatchingFiles.            (* [bail!("No files matching pattern ...")] *)

(** [.map(f).collect::<Vec<_>>()] for an [f] that may panic. *)
Fixpoint map_outcome {A B} (f : A -> outcome B) (l : list A) : outcome (list B) :=
  match l with
  | [] => Ret []
  | x :: l' => y <- f x ;; ys <- map_outcome f l' ;; Ret (y :: ys)
  end.

(** [main] from the compilation of the destination template up to the
    [calculated_source_destination.is_empty()] check: [None] when
    [compile] does not return within [fuel] iterations.  The later
    directory-existence check and the renames are not modelled, nor is the
    char-boundary panic of [compile] (see [compile_step]). *)
Definition main_plan (fuel : nat) (source_pattern : SourcePathPattern)
  (destination_template : str) (fs : FileSystem) (current_dir : path)
  : outcome (option (result (list (path * path)) main_error)) :=
  n <- spp_wildcards_number source_pattern ;;
  if 255 <? n then Ret (Some (Err TooManyWildcards))
  else
    match compile fuel destination_template n with
    | None => Ret None
    | Some compiled_destination_pattern =>
        matches <- matching_files source_pattern fs current_dir ;;
        match matches with
        | Err e => Ret (Some (Err (MatchingFailed e)))
        | Ok matches =>
            calculated <- map_outcome
              (fun m => destination <- substitute compiled_destination_pattern (snd m) ;;
                        Ret (fst m, destination)) matches ;;
            if is_empty_list calculated then Ret (Some (Err NoMatchingFiles))
            else Ret (Some (Ok calculated))
        end
    end.

(** ** Specification-side definitions (from the spec's words) *)

(** [k] is the first (leftmost) occurrence of [b] in [t]: no occurrence of
    [b] starts before offset [k]. *)
Definition leftmost (b t : str) (k : nat) : Prop :=
  forall j, j < k -> is_prefix b (skipn j t) = false.

(** [glob_tail [b1; ...; bn] t [c1; ...; cn]]: [t = c1 ++ b1 ++ ... ++ cn ++ bn]
    where every middle block [bi] (i < n) is found at its leftmost
    occurrence in the text remaining before it, and [bn] is a suffix. *)
Fixpoint glob_tail (bs : list str) (t : str) (cs : list str) : Prop :=
  match bs, cs with
  | [], [] => t = []
  | [b], [c] => t = c ++ b
  | b :: (_ :: _) as bs', c :: cs' =>
      exists t', t = c ++ b ++ t' /\ leftmost b t (List.length c) /\ glob_tail bs' t' cs'
  | _, _ => False
  end.

(** Match decomposition: [s = b0 ++ c1 ++ b1 ++ ... ++ cn ++ bn]. *)
Definition glob_decomposition (blocks : list str) (s : str) (cs : list str) : Prop :=
  match blocks with
  | [] => False
  | b0 :: bs => exists t, s = b0 ++ t /\ glob_tail bs t cs
  end.

(** [fragments[m1 - 1] ++ block1 ++ fragments[m2 - 1] ++ block2 ++ ...]. *)
Fixpoint interleave (ms : list nat) (bs : list str) (fragments : list str) : str :=
  match ms, bs with
  | m :: ms', b :: bs' => nth (m - 1) fragments [] ++ b ++ interleave ms' bs' fragments
  | _, _ => []
  end.

(** The destination filename of the spec: [literal_blocks[0]] followed by the
    interleaving of the fragments and the remaining literal blocks. *)
Definition spec_filename (t : DestinationPathTemplate) (fragments : list str) : str :=
  match dlit_blocks t with
  | [] => []
  | b0 :: bs => b0 ++ interleave (markers t) bs fragments
  end.

(** The directory/filename split of the spec: [d] is empty or ends with
    ['/'], and the filename [f] contains no ['/']. *)
Definition last_slash_split (s d f : str) : Prop :=
  s = d ++ f /\ ~ In slash f /\ (d = [] \/ exists d', d = d' ++ [slash]).

(** Invariant of the ['find_marker] loop: one literal block per marker so
    far, every marker in [1..=max_marker_index]. *)
Definition compile_inv (max : nat) (st : cstate) : Prop :=
  List.length (cblocks st) = List.length (cmarkers st) /\
  Forall (fun m => 1 <= m <= max) (cmarkers st).

(** The scan of the spec (section 4.2): identical to [compile_step] except
    that a sigil that starts no marker is kept literal and scanning resumes
    one position after it, i.e. at offset
    [current_offset_in_filename + hashtag_position + 1] of the remainder. *)
Definition spec_compile_step (max_marker_index : nat) (st : cstate) : option cstate :=
  let rem := filename_remainder st in
  let cur := current_offset_in_filename st in
  match find [hash] (skipn cur rem) with
  | None => None
  | Some hashtag_position =>
      match first_marker max_marker_index (skipn (cur + hashtag_position + 1) rem) with
      | Some marker_index =>
          Some (mkC (skipn (cur + hashtag_position + List.length (dec marker_index) + 1) rem)
                    0
                    (cmarkers st ++ [marker_index])
                    (cblocks st ++ [firstn (cur + hashtag_position) rem]))
      | None => Some (mkC rem (cur + hashtag_position + 1) (cmarkers st) (cblocks st))
      end
  end.

Fixpoint spec_compile_loop (fuel max_marker_index : nat) (st : cstate) : option cstate :=
  match fuel with
  | 0 => None
  | S f =>
      match spec_compile_step max_marker_index st with
      | None => Some st
      | Some st' => spec_compile_loop f max_marker_index st'
      end
  end.

(** Markers and literal blocks of a filename segment according to the spec. *)
Definition spec_compile_filename (fuel : nat) (filename : str) (max_marker_index : nat)
  : option (list nat * list str) :=
  match spec_compile_loop fuel max_marker_index (mkC filename 0 [] []) with
  | None => None
  | Some st => Some (cmarkers st, cblocks st ++ [filename_remainder st])
  end.

(** The text a template stands for: every literal block followed by the
    ['#'] sigil and the decimal index of the marker after it. *)
Fixpoint template_text (bs : list str) (ms : list nat) : str :=
  match bs with
  | [] => []
  | b :: bs' =>
      match ms with
      | m :: ms' => b ++ [hash] ++ dec m ++ template_text bs' ms'
      | [] => b
      end
  end.

(** A regular file whose name is the single (non-UTF-8) byte [0xFF], and the
    source pattern ["*"]. *)
Definition non_utf8_entry : DirEntry := mkEntry [ascii_of_nat 255] (Some (mkMeta true)).

Definition star_source_pattern : SourcePathPattern := mkSPP [] (glob_from (lit "*")).

(** A listed entry that [matching_files] records as the match [(x, cs)]:
    a regular file (readable metadata) whose name is valid UTF-8, matched by
    the filename pattern with captures [cs], recorded as the pattern's
    directory joined with the name. *)
Definition matched_entry (p : SourcePathPattern) (e : DirEntry) (x : path) (cs : list str) : Prop :=
  exists md, metadata e = Some md /\ is_file md = true /\ utf8_valid (file_name e) = true /\
    x = path_join (sdirectory p) (file_name e) /\
    match_string (filename_pattern p) (file_name e) = Ret (Some cs).

(** A listing item on which the loop of [matching_files] stops with an
    error: a failed [dir_entry] or a failed [metadata()]. *)
Definition failing_entry (o : option DirEntry) : Prop :=
  match o with
  | None => True
  | Some e => metadata e = None
  end.

Definition txt_source_pattern : SourcePathPattern := mkSPP [] (glob_from (lit "*.txt")).

Definition txt_listing : list (option DirEntry) :=
  [Some (mkEntry (lit "notes") (Some (mkMeta false)));
   Some (mkEntry (lit "a.txt") (Some (mkMeta true)));
   Some (mkEntry (lit "b.png") (Some (mkMeta true)))].

Definition txt_fs : FileSystem := fun _ => Some txt_listing.

Definition broken_fs : FileSystem := fun _ => Some (txt_listing ++ [None]).


(** ** Unit tests of the source, replayed *)

Example glob_from_test :
  map literal_blocks
      [glob_from (lit ""); glob_from (lit "*"); glob_from (lit "original_*.*");
       glob_from (lit "**.*")]
  = [[lit ""]; [lit ""; lit ""]; [lit "original_"; lit "."; lit ""];
     [lit ""; lit ""; lit "."; lit ""]].
Proof. reflexivity. Qed.

Example match_repeated_test :
  map (match_string (glob_from (lit "*.rs*.rs")))
      [lit "file.rs"; lit ".rs.rs"; lit "file.rs42.rs"; lit ".rs.rsjunk"]
  = [Ret None; Ret (Some [lit ""; lit ""]); Ret (Some [lit "file"; lit "42"]);
     Ret None].
Proof. reflexivity. Qed.

Example match_star_dot_star_test :
  map (match_string (glob_from (lit "*.*")))
      [lit "42.rs"; lit "."; lit "nodotrs"; lit ""]
  = [Ret (Some [lit "42"; lit "rs"]); Ret (Some [lit ""; lit ""]); Ret None; Ret None].
Proof. reflexivity. Qed.

Example compile_test :
  compile 100 (lit "file_#1_name.#2") 2
    = Some (mkDPT [] [1; 2] [lit "file_"; lit "_name."; lit ""]) /\
  compile 100 (lit "#1#2#1#1#2") 2 = Some (mkDPT [] [1; 2; 1; 1; 2] (repeat [] 6)) /\
  compile 100 (lit "path/to/file_##1.#2") 5
    = Some (mkDPT (lit "path/to/") [1; 2] [lit "file_#"; lit "."; lit ""]) /\
  compile 100 (lit "/absolute/path/#20.#2") 20
    = Some (mkDPT (lit "/absolute/path/") [20; 2] [lit ""; lit "."; lit ""]) /\
  compile 100 (lit "/file_in_root#1.png") 1
    = Some (mkDPT (lit "/") [1] [lit "file_in_root"; lit ".png"]).
Proof. vm_compute. repeat split. Qed.

Example compile_disambiguation_test :
  compile 100 (lit "#1#12#123#1#123") 12
    = Some (mkDPT [] [1; 12; 12; 1; 12] [lit ""; lit ""; lit ""; lit "3"; lit ""; lit "3"]).
Proof. vm_compute. reflexivity. Qed.

Example substitute_test :
  (t <- unwrap (compile 100 (lit "dir/file_#2.#1") 2) ;;
   substitute t [lit "#2"; lit "#1"]) = Ret (lit "dir/file_#1.#2") /\
  (t <- unwrap (compile 100 (lit "file#1.#2") 1) ;;
   substitute t [lit "hello"; lit "world"]) = Ret (lit "filehello.#2").
Proof. vm_compute. split; reflexivity. Qed.

Example from_str_test :
  from_str (lit "doctor/in/blue/box/*.tardis")
    = Ok (mkSPP (lit "doctor/in/blue/box/") (glob_from (lit "*.tardis"))) /\
  from_str (lit "master*dalek") = Ok (mkSPP [] (glob_from (lit "master*dalek"))) /\
  from_str (lit "/from_root.*") = Ok (mkSPP (lit "/") (glob_from (lit "from_root.*"))).
Proof. vm_compute. repeat split. Qed.

(** * Lemmas on the string primitives *)

Lemma ascii_eqb_true a b : ascii_eqb a b = true <-> a = b.
Proof. unfold ascii_eqb; destruct (ascii_dec a b); split; congruence. Qed.

Lemma ascii_eqb_refl a : ascii_eqb a a = true.
Proof. apply ascii_eqb_true; reflexivity. Qed.

Lemma is_prefix_app p s : is_prefix p s = true <-> exists r, s = p ++ r.
Proof.
  revert s; induction p as [|a p IH]; intros [|b s]; simpl.
  - split; eauto.
  - split; eauto.
  - split; [discriminate | intros [r Hr]; discriminate].
  - rewrite andb_true_iff, ascii_eqb_true, IH. split.
    + intros [-> [r ->]]; eauto.
    + intros [r Hr]; injection Hr as -> ->; eauto.
Qed.

Lemma strip_prefix_app p s r : strip_prefix p s = Some r <-> s = p ++ r.
Proof.
  revert s; induction p as [|a p IH]; intros [|b s]; simpl.
  - split; congruence.
  - split; congruence.
  - split; discriminate.
  - destruct (ascii_eqb a b) eqn:E.
    + apply ascii_eqb_true in E; subst. rewrite IH. split; [intros ->|intros H; injection H]; auto.
    + split; [discriminate|]. intros H; injection H as <- _. rewrite ascii_eqb_refl in E. discriminate.
Qed.

Lemma strip_suffix_app p s r : strip_suffix p s = Some r <-> s = r ++ p.
Proof.
  unfold strip_suffix. split.
  - destruct (strip_prefix (rev p) (rev s)) as [r'|] eqn:E; [|discriminate].
    intros H; injection H as <-. apply strip_prefix_app in E.
    rewrite <- (rev_involutive s), E, rev_app_distr, rev_involutive. reflexivity.
  - intros ->. rewrite rev_app_distr.
    assert (E : strip_prefix (rev p) (rev p ++ rev r) = Some (rev r)) by (apply strip_prefix_app; reflexivity).
    rewrite E, rev_involutive. reflexivity.
Qed.

Lemma find_some p t k :
  find p t = Some k <-> is_prefix p (skipn k t) = true /\ leftmost p t k.
Proof.
  revert k; induction t as [|x t IH]; intros k; simpl.
  - destruct (is_prefix p []) eqn:E.
    + split.
      * intros H; injection H as <-. split; [exact E | intros j Hj; lia].
      * intros [_ Hl]. destruct k; [reflexivity|]. specialize (Hl 0 ltac:(lia)). simpl in Hl. congruence.
    + split; [discriminate|]. intros [H _]. destruct k; simpl in H; congruence.
  - destruct (is_prefix p (x :: t)) eqn:E.
    + split.
      * intros H; injection H as <-. split; [exact E | intros j Hj; lia].
      * intros [_ Hl]. destruct k; [reflexivity|]. specialize (Hl 0 ltac:(lia)). simpl in Hl. congruence.
    + destruct (find p t) as [k'|] eqn:F; simpl.
      * pose proof (proj1 (IH k') eq_refl) as [H1 H2]. split.
        -- intros H; injection H as <-. split; [exact H1|].
           intros [|j] Hj; [exact E | apply H2; lia].
        -- intros [Hp Hl]. destruct k as [|k]; [simpl in Hp; congruence|].
           assert (Hk : Some k' = Some k).
           { apply IH. split; [exact Hp | intros j Hj; apply (Hl (S j)); lia]. }
           congruence.
      * split; [discriminate|]. intros [Hp Hl]. destruct k as [|k]; [simpl in Hp; congruence|].
        assert (Hk : None = Some k).
        { apply IH. split; [exact Hp | intros j Hj; apply (Hl (S j)); lia]. }
        discriminate.
Qed.

Lemma firstn_skipn_app {A} (l1 l2 : list A) :
  firstn (List.length l1) (l1 ++ l2) = l1 /\ skipn (List.length l1) (l1 ++ l2) = l2.
Proof. induction l1 as [|a l1 IH]; simpl; [auto | destruct IH as [-> ->]; auto]. Qed.

Lemma last_error_snoc {A} (l : list A) x : last_error (l ++ [x]) = Some x.
Proof. induction l as [|a [|b l] IH]; simpl in *; auto. Qed.

Lemma split_nonempty c s : split c s <> [].
Proof.
  induction s as [|x s IH]; simpl; [discriminate|].
  destruct (ascii_eqb x c); [discriminate|]. destruct (split c s); discriminate.
Qed.

Lemma join_split c s : join [c] (split c s) = s.
Proof.
  induction s as [|x s IH]; simpl; [reflexivity|].
  pose proof (split_nonempty c s) as Hne.
  destruct (ascii_eqb x c) eqn:E.
  - apply ascii_eqb_true in E; subst.
    destruct (split _ s) as [|p ps]; [contradiction|]. rewrite <- IH. destruct ps; reflexivity.
  - destruct (split c s) as [|p ps]; [contradiction|].
    destruct ps as [|p' ps]; simpl in *; rewrite <- IH; reflexivity.
Qed.

(** * Glob matching *)

Lemma find_le p t k : find p t = Some k -> k <= List.length t.
Proof.
  revert k; induction t as [|x t IH]; intros k; simpl.
  - destruct (is_prefix p []); intros H; inversion H; lia.
  - destruct (is_prefix p (x :: t)); [intros H; injection H as <-; lia|].
    destruct (find p t) as [k'|]; simpl; [|discriminate].
    intros H; injection H as <-. specialize (IH k' eq_refl). lia.
Qed.

Lemma find_decomp p t k :
  find p t = Some k ->
  t = firstn k t ++ p ++ skipn (k + List.length p) t /\ List.length (firstn k t) = k.
Proof.
  intros H. pose proof (find_le _ _ _ H) as Hle.
  apply find_some in H as [Hp _]. apply is_prefix_app in Hp as [r Hr].
  rewrite Nat.add_comm, <- skipn_skipn, Hr, (proj2 (firstn_skipn_app p r)).
  split.
  - rewrite <- Hr. symmetry. apply firstn_skipn.
  - rewrite length_firstn. lia.
Qed.

Lemma find_at c b t' :
  leftmost b (c ++ b ++ t') (List.length c) ->
  find b (c ++ b ++ t') = Some (List.length c).
Proof.
  intros Hl. apply find_some. split; [|exact Hl].
  rewrite (proj2 (firstn_skipn_app c (b ++ t'))). apply is_prefix_app. eauto.
Qed.

Lemma match_middle_length mids t res r :
  match_middle mids t = Some (res, r) -> List.length res = List.length mids.
Proof.
  revert t res; induction mids as [|b mids IH]; intros t res; simpl.
  - intros H; injection H as <- _; reflexivity.
  - destruct (find b t) as [k|]; [|discriminate].
    destruct (match_middle mids _) as [[res' r']|] eqn:E; [|discriminate].
    intros H; injection H as <- <-. simpl. f_equal. eapply IH; exact E.
Qed.

Lemma glob_tail_cons b l t cs :
  l <> [] ->
  glob_tail (b :: l) t cs <->
  exists c cs' t', cs = c :: cs' /\ t = c ++ b ++ t' /\
                   leftmost b t (List.length c) /\ glob_tail l t' cs'.
Proof.
  intros Hne. destruct l as [|b2 l]; [contradiction|].
  destruct cs as [|c cs']; simpl.
  - split; [contradiction | intros (? & ? & ? & H & _); discriminate].
  - split.
    + intros (t' & H1 & H2 & H3). exists c, cs', t'. auto.
    + intros (c0 & cs0 & t' & H & H1 & H2 & H3). injection H as <- <-. eauto.
Qed.

Lemma middle_last_spec mids lb t cs :
  (exists res r c, match_middle mids t = Some (res, r) /\
                   strip_suffix lb r = Some c /\ cs = res ++ [c])
  <-> glob_tail (mids ++ [lb]) t cs.
Proof.
  revert t cs; induction mids as [|b mids IH]; intros t cs.
  - simpl. destruct cs as [|c [|c' cs]]; simpl.
    + split; [intros (res & r & c & _ & _ & H); destruct res; discriminate | contradiction].
    + split.
      * intros (res & r & c0 & H & Hc & Hcs). injection H as <- <-.
        injection Hcs as ->. apply strip_suffix_app. exact Hc.
      * intros ->. exists [], (c ++ lb), c. split; [reflexivity|].
        split; [apply strip_suffix_app; reflexivity | reflexivity].
    + split; [|contradiction].
      intros (res & r & c0 & H & _ & Hcs). injection H as <- _. discriminate.
  - simpl app. rewrite glob_tail_cons by (destruct mids; discriminate).
    simpl match_middle. split.
    + intros (res & r & c & H & Hc & Hcs).
      destruct (find b t) as [k|] eqn:F; [|discriminate].
      destruct (match_middle mids _) as [[res' r']|] eqn:E; [|discriminate].
      injection H as <- <-.
      pose proof (find_decomp _ _ _ F) as [Ht Hk].
      exists (firstn k t), (res' ++ [c]), (skipn (k + List.length b) t).
      split; [rewrite Hcs; reflexivity|]. split; [exact Ht|].
      split; [rewrite Hk; apply (proj2 (proj1 (find_some _ _ _) F))|].
      apply IH. exists res', r', c. auto.
    + intros (c & cs' & t' & -> & Ht & Hl & Hrest).
      apply IH in Hrest as (res & r & c0 & E & Hc & ->).
      rewrite Ht in Hl |- *. rewrite (find_at _ _ _ Hl).
      rewrite (proj1 (firstn_skipn_app c (b ++ t'))).
      rewrite Nat.add_comm, <- skipn_skipn, (proj2 (firstn_skipn_app c (b ++ t'))),
              (proj2 (firstn_skipn_app b t')), E.
      exists (c :: res), r, c0. auto.
Qed.

Lemma match_string_multi b0 mids lb s :
  match_string (mkGlob (b0 :: mids ++ [lb])) s =
  match strip_prefix b0 s with
  | None => Ret None
  | Some t =>
      match match_middle mids t with
      | None => Ret None
      | Some (res, r) =>
          match strip_suffix lb r with
          | None => Ret None
          | Some c => Ret (Some (res ++ [c]))
          end
      end
  end.
Proof.
  unfold match_string, wildcards_number. cbn [literal_blocks index nth_error obind].
  destruct (strip_prefix b0 s) as [t|]; [|reflexivity].
  rewrite length_cons, last_length. cbn [obind Nat.eqb].
  replace (S (List.length mids) - 1) with (List.length mids) by lia.
  simpl skipn. rewrite (proj1 (firstn_skipn_app mids [lb])).
  destruct (match_middle mids t) as [[res r]|] eqn:E; [|reflexivity].
  change (b0 :: mids ++ [lb]) with ((b0 :: mids) ++ [lb]).
  rewrite last_error_snoc. cbn [unwrap obind].
  destruct (strip_suffix lb r); [|reflexivity].
  rewrite last_length, (match_middle_length _ _ _ _ E), Nat.eqb_refl. reflexivity.
Qed.

Lemma match_string_no_panic b0 bs s : match_string (mkGlob (b0 :: bs)) s <> Panic.
Proof.
  destruct bs as [|b1 bs].
  - unfold match_string, wildcards_number. simpl.
    destruct (strip_prefix b0 s); simpl; discriminate.
  - destruct (exists_last (l := b1 :: bs) ltac:(discriminate)) as [mids [lb E]].
    rewrite E, match_string_multi.
    destruct (strip_prefix b0 s); [|discriminate].
    destruct (match_middle mids _) as [[res r]|]; [|discriminate].
    destruct (strip_suffix lb r); discriminate.
Qed.

(** C4: for every pattern with literal blocks [b0..bn] and every string [s],
    [match_string] returns [Some [c1..cn]] exactly when
    [s = b0 ++ c1 ++ b1 ++ ... ++ cn ++ bn] with every middle block found at
    its leftmost occurrence in the remaining text and [bn] a suffix of what
    remains; a returned capture list has [wildcards_number] entries. *)
Theorem match_string_decomposition (p : GlobStarPattern) (s : str) (cs : list str) :
  (match_string p s = Ret (Some cs) <-> glob_decomposition (literal_blocks p) s cs) /\
  (match_string p s = Ret (Some cs) -> wildcards_number p = Ret (List.length cs)).
Proof.
  destruct p as [[|b0 bs]].
  - cbn. split; [split; [discriminate | contradiction] | discriminate].
  - destruct bs as [|b1 bs].
    + unfold match_string, wildcards_number, glob_decomposition. cbn [literal_blocks index nth_error obind List.length].
      destruct (strip_prefix b0 s) as [t|] eqn:Hs; cbn [obind Nat.eqb].
      * apply strip_prefix_app in Hs. subst s.
        destruct t as [|x t]; simpl.
        -- split; [split|].
           ++ intros H; injection H as <-. exists []. auto.
           ++ intros (t & Ht & Hc). rewrite app_nil_r in Ht.
              rewrite <- (app_nil_r b0) in Ht at 1. apply app_inv_head in Ht. subst t.
              destruct cs; [reflexivity | contradiction].
           ++ intros H; injection H as <-. reflexivity.
        -- split; [split|].
           ++ discriminate.
           ++ intros (t' & Ht & Hc). apply app_inv_head in Ht. subst t'.
              destruct cs; simpl in Hc; [discriminate | contradiction].
           ++ discriminate.
      * split; [split|].
        -- discriminate.
        -- intros (t & -> & _). rewrite (proj2 (strip_prefix_app b0 (b0 ++ t) t) eq_refl) in Hs.
           discriminate.
        -- discriminate.
    + destruct (exists_last (l := b1 :: bs) ltac:(discriminate)) as [mids [lb E]].
      rewrite E, match_string_multi. unfold glob_decomposition. cbn [literal_blocks].
      split; [split|].
      * destruct (strip_prefix b0 s) as [t|] eqn:Hs; [|discriminate].
        destruct (match_middle mids t) as [[res r]|] eqn:Hm; [|discriminate].
        destruct (strip_suffix lb r) as [c|] eqn:Hc; [|discriminate].
        intros H; injection H as <-. exists t.
        split; [apply strip_prefix_app; exact Hs|].
        apply middle_last_spec. exists res, r, c. auto.
      * intros (t & -> & Ht). apply middle_last_spec in Ht as (res & r & c & Hm & Hc & ->).
        rewrite (proj2 (strip_prefix_app b0 (b0 ++ t) t) eq_refl), Hm, Hc. reflexivity.
      * destruct (strip_prefix b0 s) as [t|] eqn:Hs; [|discriminate].
        destruct (match_middle mids t) as [[res r]|] eqn:Hm; [|discriminate].
        destruct (strip_suffix lb r) as [c|] eqn:Hc; [|discriminate].
        intros H; injection H as <-.
        unfold wildcards_number. cbn [literal_blocks List.length].
        rewrite !last_length, (match_middle_length _ _ _ _ Hm). reflexivity.
Qed.

(** C10: the literal-block list of every compiled [GlobStarPattern] is
    non-empty (also for the empty pattern string), so [wildcards_number] is
    [literal_blocks.len() - 1] without underflow and [match_string] never
    panics on its first/last block accesses. *)
Theorem glob_from_blocks_nonempty (s : str) :
  literal_blocks (glob_from s) <> [] /\
  wildcards_number (glob_from s) = Ret (List.length (literal_blocks (glob_from s)) - 1) /\
  (forall t, match_string (glob_from s) t <> Panic).
Proof.
  pose proof (split_nonempty star s) as Hne.
  unfold glob_from, wildcards_number; cbn [literal_blocks].
  destruct (split star s) as [|b0 bs]; [contradiction|].
  split; [exact Hne|]. split.
  - simpl. rewrite Nat.sub_0_r. reflexivity.
  - intros t. apply match_string_no_panic.
Qed.

(** * The directory/filename split *)

Lemma rfind_some c s k :
  rfind c s = Some k -> exists pre post, s = pre ++ c :: post /\ List.length pre = k /\ ~ In c post.
Proof.
  revert k; induction s as [|x s IH]; intros k; simpl; [discriminate|].
  destruct (rfind c s) as [k'|] eqn:E.
  - intros H; injection H as <-. destruct (IH k' eq_refl) as (pre & post & -> & <- & Hp).
    exists (x :: pre), post. auto.
  - destruct (ascii_eqb x c) eqn:X; [|discriminate]. intros H; injection H as <-.
    apply ascii_eqb_true in X; subst x. exists [], s. split; [reflexivity|]. split; [reflexivity|].
    intros Hin. clear IH. induction s as [|y s IHs]; [exact Hin|].
    simpl in E. destruct (rfind c s); [discriminate|].
    destruct Hin as [->|Hin]; [rewrite ascii_eqb_refl in E; discriminate | auto].
Qed.

Lemma rfind_none c s : rfind c s = None -> ~ In c s.
Proof.
  induction s as [|x s IH]; simpl; [auto|].
  destruct (rfind c s); [discriminate|]. destruct (ascii_eqb x c) eqn:X; [discriminate|].
  intros _ [->|Hin]; [rewrite ascii_eqb_refl in X; discriminate | exact (IH eq_refl Hin)].
Qed.

Lemma split_last_slash_spec s :
  last_slash_split s (fst (split_last_slash s)) (snd (split_last_slash s)).
Proof.
  unfold split_last_slash, last_slash_split. destruct (rfind slash s) as [k|] eqn:E; simpl.
  - destruct (rfind_some _ _ _ E) as (pre & post & -> & <- & Hp).
    replace (pre ++ slash :: post) with ((pre ++ [slash]) ++ post) by (rewrite <- app_assoc; reflexivity).
    replace (List.length pre + 1) with (List.length (pre ++ [slash])) by (rewrite last_length; lia).
    rewrite (proj1 (firstn_skipn_app _ _)), (proj2 (firstn_skipn_app _ _)).
    split; [reflexivity|]. split; [exact Hp|]. right. eauto.
  - split; [reflexivity|]. split; [apply rfind_none; exact E|]. left; reflexivity.
Qed.

Lemma slash_carried d' l f :
  l <> [] -> (d' ++ l = [] \/ exists d0, d' ++ l = d0 ++ [slash]) -> In slash (l ++ f).
Proof.
  intros Hl [H|[d0 H]].
  - apply app_eq_nil in H as [_ ->]. contradiction.
  - destruct (exists_last Hl) as [l0 [a ->]].
    rewrite app_assoc in H. apply app_inj_tail in H as [_ ->].
    apply in_or_app; left. apply in_or_app; right. left; reflexivity.
Qed.

Lemma last_slash_split_unique s d f d' f' :
  last_slash_split s d f -> last_slash_split s d' f' -> d = d' /\ f = f'.
Proof.
  intros (Hs & Hf & Hd) (Hs' & Hf' & Hd'). rewrite Hs in Hs'.
  destruct (app_eq_app _ _ _ _ Hs') as [l [[E1 E2]|[E1 E2]]].
  - destruct l as [|a l]; [rewrite app_nil_r in E1; subst; auto|].
    exfalso. apply Hf'. rewrite E2. apply (slash_carried d'); [discriminate|].
    rewrite <- E1. destruct Hd as [->|[d0 ->]]; eauto.
  - destruct l as [|a l]; [rewrite app_nil_r in E1; subst; auto|].
    exfalso. apply Hf. rewrite E2. apply (slash_carried d); [discriminate|].
    rewrite <- E1. destruct Hd' as [->|[d0 ->]]; eauto.
Qed.

Lemma split_last_slash_eq s d f :
  last_slash_split s d f -> split_last_slash s = (d, f).
Proof.
  intros H. destruct (last_slash_split_unique _ _ _ _ _ (split_last_slash_spec s) H) as [E1 E2].
  destruct (split_last_slash s); simpl in *; subst; reflexivity.
Qed.

(** * UTF-8 *)

Lemma in_range_ascii lo hi c : 128 <= lo -> nat_of_ascii c < 128 -> in_range lo hi c = false.
Proof. intros H1 H2. unfold in_range. apply andb_false_iff; left. apply Nat.leb_gt. lia. Qed.

(** A valid UTF-8 string stays valid when cut just after an ASCII byte. *)
Lemma utf8_valid_cut n x c y :
  List.length x <= n -> nat_of_ascii c < 128 ->
  utf8_valid (x ++ c :: y) = true -> utf8_valid (x ++ [c]) = true.
Proof.
  revert x; induction n as [|n IH]; intros x Hn Hc H.
  - destruct x; [|simpl in Hn; lia]. simpl. rewrite (proj2 (Nat.ltb_lt _ _) Hc). reflexivity.
  - destruct x as [|a r].
    + simpl. rewrite (proj2 (Nat.ltb_lt _ _) Hc). reflexivity.
    + simpl in Hn. simpl in H, Hn |- *. unfold cont in *.
      destruct (nat_of_ascii a <? 128); [apply IH; auto; lia|].
      destruct (in_range 194 223 a).
      { destruct r as [|b1 r]; simpl in H, Hn |- *.
        - rewrite (in_range_ascii _ _ c) in H by lia. discriminate.
        - apply andb_true_iff in H as [H1 H2]. rewrite H1. apply IH; auto; lia. }
      destruct (in_range 224 239 a).
      { destruct r as [|b1 [|b2 r]]; simpl in H, Hn |- *.
        - destruct y as [|b2 y]; [discriminate|].
          rewrite !(in_range_ascii _ _ c) in H by lia.
          destruct (nat_of_ascii a =? 224), (nat_of_ascii a =? 237); discriminate.
        - rewrite (in_range_ascii _ _ c) in H by lia. rewrite andb_false_r in H. discriminate.
        - apply andb_true_iff in H as [H1 H2]. rewrite H1. apply IH; auto; lia. }
      destruct (in_range 240 244 a); [|discriminate].
      destruct r as [|b1 [|b2 [|b3 r]]]; simpl in H, Hn |- *.
      * destruct y as [|b2 [|b3 y]]; try discriminate.
        rewrite !(in_range_ascii _ _ c) in H by lia.
        destruct (nat_of_ascii a =? 240), (nat_of_ascii a =? 244); discriminate.
      * destruct y as [|b3 y]; [discriminate|].
        rewrite (in_range_ascii _ _ c) in H by lia. rewrite andb_false_r in H. discriminate.
      * rewrite (in_range_ascii _ _ c) in H by lia. rewrite andb_false_r in H. discriminate.
      * apply andb_true_iff in H as [H1 H2]. rewrite H1. apply IH; auto; lia.
Qed.

(** * Source patterns *)

Lemma contains_in c s : contains c s = true <-> In c s.
Proof.
  unfold contains. rewrite existsb_exists. split.
  - intros (x & Hx & E). apply ascii_eqb_true in E. subst. exact Hx.
  - intros Hin. exists c. split; [exact Hin | apply ascii_eqb_refl].
Qed.

(** C5: re-serialising a compiled pattern reproduces the pattern string:
    [GlobStarPattern]'s [Display] (the blocks joined with ["*"]) gives back
    the string it was compiled from, and for every (UTF-8) string accepted
    by [SourcePathPattern::from_str], its [Display] (directory followed by
    the filename pattern) gives back the original string. *)
Theorem display_round_trip :
  (forall p, glob_display (glob_from p) = p) /\
  (forall s sp, utf8_valid s = true -> from_str s = Ok sp -> spp_display sp = Some s).
Proof.
  split.
  - intros p. apply join_split.
  - intros s sp Hv Hs. unfold from_str in Hs.
    pose proof (split_last_slash_spec s) as (Heq & _ & Hd).
    destruct (split_last_slash s) as [d f]; simpl in Heq, Hd.
    destruct (contains star d); [discriminate|]. injection Hs as <-.
    unfold spp_display, to_str, glob_display. cbn [sdirectory filename_pattern].
    replace (utf8_valid d) with true.
    + change (Some (d ++ join [star] (split star f)) = Some s).
      rewrite join_split. f_equal. symmetry. exact Heq.
    + symmetry. destruct Hd as [->|[d' ->]]; [reflexivity|].
      rewrite Heq, <- app_assoc in Hv.
      apply (utf8_valid_cut (List.length d') d' slash f); [lia | apply Nat.ltb_lt; reflexivity | exact Hv].
Qed.

Lemma display_round_trip_witness :
  utf8_valid (lit "path/*.png") = true /\
  from_str (lit "path/*.png") = Ok (mkSPP (lit "path/") (glob_from (lit "*.png"))) /\
  spp_display (mkSPP (lit "path/") (glob_from (lit "*.png"))) = Some (lit "path/*.png").
Proof.
  split; [reflexivity|]. split; [reflexivity|].
  apply (proj2 display_round_trip); reflexivity.
Defined.

(** C6: for a source pattern [s] split at its last ['/'] into the directory
    [d] and the filename [f], [from_str s] fails exactly when [d] contains
    ['*'] (with the wildcard-only-in-filename error), and on success the
    directory is [d] and the filename pattern is [GlobStarPattern::from f]. *)
Theorem from_str_wildcard_in_directory (s d f : str) (H : last_slash_split s d f) :
  (from_str s = Err wildcard_error <-> In star d) /\
  ((exists e, from_str s = Err e) <-> In star d) /\
  (forall sp, from_str s = Ok sp -> sdirectory sp = d /\ filename_pattern sp = glob_from f).
Proof.
  unfold from_str. rewrite (split_last_slash_eq _ _ _ H).
  destruct (contains star d) eqn:E.
  - apply contains_in in E. split; [split; auto|]. split; [split; eauto|].
    intros sp Hsp; discriminate.
  - assert (~ In star d) by (rewrite <- contains_in, E; discriminate).
    split; [split; [discriminate | contradiction]|]. split.
    + split; [intros [e He]; discriminate | contradiction].
    + intros sp Hsp. injection Hsp as <-. auto.
Qed.

Lemma from_str_wildcard_in_directory_witness :
  last_slash_split (lit "b*d/pattern") (lit "b*d/") (lit "pattern") /\
  from_str (lit "b*d/pattern") = Err wildcard_error.
Proof.
  assert (Hs : last_slash_split (lit "b*d/pattern") (lit "b*d/") (lit "pattern")).
  { split; [reflexivity|]. split.
    - simpl. intros Hin. repeat destruct Hin as [Hin|Hin]; try discriminate; contradiction.
    - right. exists (lit "b*d"). reflexivity. }
  split; [exact Hs|].
  apply (proj1 (from_str_wildcard_in_directory _ _ _ Hs)). simpl. auto.
Defined.

(** * Destination templates *)

(** C8: [compile] keeps the text up to and including the last ['/']
    verbatim as the directory and scans only the filename remainder for
    markers: its markers and literal blocks are those of the filename part
    alone, whatever marker sigils the directory contains. *)
Theorem compile_directory_verbatim (fuel : nat) (tpl d f : str) (max_marker_index : nat)
  (H : last_slash_split tpl d f) :
  compile fuel tpl max_marker_index
  = option_map (fun r => mkDPT d (fst r) (snd r)) (compile_filename fuel f max_marker_index).
Proof.
  unfold compile. rewrite (split_last_slash_eq _ _ _ H).
  destruct (compile_filename fuel f max_marker_index) as [[ms bs]|]; reflexivity.
Qed.

Lemma compile_directory_verbatim_witness :
  last_slash_split (lit "path#1/#1#2.png") (lit "path#1/") (lit "#1#2.png") /\
  compile 10 (lit "path#1/#1#2.png") 3
  = Some (mkDPT (lit "path#1/") [1; 2] [lit ""; lit ""; lit ".png"]).
Proof.
  assert (Hs : last_slash_split (lit "path#1/#1#2.png") (lit "path#1/") (lit "#1#2.png")).
  { split; [reflexivity|]. split.
    - simpl. intros Hin. repeat destruct Hin as [Hin|Hin]; try discriminate; contradiction.
    - right. exists (lit "path#1"). reflexivity. }
  split; [exact Hs|].
  rewrite (compile_directory_verbatim 10 _ _ _ 3 Hs). vm_compute. reflexivity.
Defined.

Lemma first_marker_range max s k : first_marker max s = Some k -> 1 <= k <= max.
Proof.
  induction max as [|max IH]; simpl; [discriminate|].
  destruct (is_prefix (dec (S max)) s).
  - intros H; injection H as <-. lia.
  - intros H. specialize (IH H). lia.
Qed.

Lemma compile_step_inv max st st' :
  compile_inv max st -> compile_step max st = Some st' -> compile_inv max st'.
Proof.
  intros [Hl Hf]. unfold compile_step.
  destruct (find [hash] _) as [pos|]; [|discriminate].
  destruct (first_marker max _) as [k|] eqn:E.
  - intros H; injection H as <-. apply first_marker_range in E.
    split; simpl; rewrite ?length_app, ?Hl; [reflexivity|].
    apply Forall_app; split; [exact Hf | constructor; [exact E | constructor]].
  - intros H; injection H as <-. split; assumption.
Qed.

Lemma compile_loop_inv fuel max st st' :
  compile_inv max st -> compile_loop fuel max st = Some st' -> compile_inv max st'.
Proof.
  revert st; induction fuel as [|fuel IH]; intros st Hinv; simpl; [discriminate|].
  destruct (compile_step max st) as [st1|] eqn:E.
  - apply IH. eapply compile_step_inv; eassumption.
  - intros H; injection H as <-. exact Hinv.
Qed.

Lemma compile_shape fuel tpl max t :
  compile fuel tpl max = Some t ->
  List.length (dlit_blocks t) = S (List.length (markers t)) /\
  Forall (fun m => 1 <= m <= max) (markers t) /\
  (directory t = [] \/ exists d', directory t = d' ++ [slash]).
Proof.
  unfold compile. pose proof (split_last_slash_spec tpl) as (_ & _ & Hd).
  destruct (split_last_slash tpl) as [d f]. simpl in Hd.
  unfold compile_filename.
  destruct (compile_loop fuel max (mkC f 0 [] [])) as [st|] eqn:E; [|discriminate].
  intros H; injection H as <-. cbn [dlit_blocks markers directory].
  apply compile_loop_inv in E as [Hl Hf]; [|split; [reflexivity | constructor]].
  rewrite last_length, Hl. auto.
Qed.

Lemma substitute_loop_panic ms bs fr acc :
  List.length ms = List.length bs -> Forall (fun m => 1 <= m) ms ->
  (substitute_loop (combine ms bs) fr acc = Panic <-> Exists (fun m => List.length fr < m) ms).
Proof.
  revert bs acc; induction ms as [|m ms IH]; intros [|b bs] acc Hlen Hf; simpl in Hlen; try discriminate.
  - simpl. split; [discriminate | intros H; inversion H].
  - inversion Hf as [|? ? Hm Hf']; subst. destruct m as [|i]; [lia|].
    simpl. unfold index. destruct (nth_error fr i) as [x|] eqn:E; cbn [obind].
    + assert (i < List.length fr) by (apply nth_error_Some; congruence).
      rewrite IH by (auto; lia). rewrite Exists_cons. split; [auto | intros [H'|H']; [lia | exact H']].
    + apply nth_error_None in E. split; [intros _; apply Exists_cons_hd; lia | reflexivity].
Qed.

Lemma substitute_loop_ret ms bs fr acc :
  List.length ms = List.length bs -> Forall (fun m => 1 <= m <= List.length fr) ms ->
  substitute_loop (combine ms bs) fr acc = Ret (acc ++ interleave ms bs fr).
Proof.
  revert bs acc; induction ms as [|m ms IH]; intros [|b bs] acc Hlen Hf; simpl in Hlen; try discriminate.
  - simpl. rewrite app_nil_r. reflexivity.
  - inversion Hf as [|? ? Hm Hf']; subst. destruct m as [|i]; [lia|].
    simpl. unfold index. rewrite (nth_error_nth' fr [] (n := i)) by lia. cbn [obind].
    rewrite IH by (auto; lia). rewrite Nat.sub_0_r, !app_assoc. reflexivity.
Qed.

(** C1 (as amended): for every compiled template, [substitute] panics
    exactly when some recorded marker index exceeds the number of fragments,
    and otherwise returns a path.  The failure is a panic of a function
    returning [PathBuf] (documented "# Panics"), not a returned error value. *)
Theorem substitute_out_of_range (fuel : nat) (tpl : str) (max_marker_index : nat)
  (t : DestinationPathTemplate) (fragments : list str)
  (H : compile fuel tpl max_marker_index = Some t) :
  (substitute t fragments = Panic <->
   exists m, In m (markers t) /\ List.length fragments < m) /\
  ((forall m, In m (markers t) -> m <= List.length fragments) ->
   exists p, substitute t fragments = Ret p).
Proof.
  destruct (compile_shape _ _ _ _ H) as (Hl & Hf & _).
  destruct t as [d ms [|b0 bs]]; simpl in Hl; [discriminate|]. injection Hl as Hl.
  cbn [markers] in *. unfold substitute.
  cbn [dlit_blocks markers directory index nth_error obind skipn].
  assert (Hf1 : Forall (fun m => 1 <= m) ms) by (eapply Forall_impl; [|exact Hf]; simpl; lia).
  pose proof (substitute_loop_panic ms bs fragments b0 (eq_sym Hl) Hf1) as HP.
  rewrite <- Exists_exists. split.
  - rewrite <- HP. destruct (substitute_loop (combine ms bs) fragments b0); simpl; split; congruence.
  - intros Hin. rewrite substitute_loop_ret; [eexists; reflexivity | auto |].
    apply Forall_forall. intros m Hm. split; [rewrite Forall_forall in Hf1; auto | auto].
Qed.

Lemma substitute_out_of_range_witness :
  compile 10 (lit "dir/file_#2.#1") 2
    = Some (mkDPT (lit "dir/") [2; 1] [lit "file_"; lit "."; lit ""]) /\
  substitute (mkDPT (lit "dir/") [2; 1] [lit "file_"; lit "."; lit ""]) [lit "meow"] = Panic.
Proof.
  assert (Hc : compile 10 (lit "dir/file_#2.#1") 2
                 = Some (mkDPT (lit "dir/") [2; 1] [lit "file_"; lit "."; lit ""]))
    by (vm_compute; reflexivity).
  split; [exact Hc|].
  apply (proj1 (substitute_out_of_range _ _ _ _ [lit "meow"] Hc)).
  exists 2. split; [left; reflexivity | simpl; lia].
Defined.

(** C1 counterexample: [compile("#1", 1).substitute(&[])] yields no value
    at all, in particular no error value the caller could inspect: it
    panics. *)
Lemma substitute_out_of_range_is_panic :
  match compile 10 (lit "#1") 1 with
  | Some t => substitute t [] = Panic
  | None => False
  end.
Proof. vm_compute. reflexivity. Qed.

(** C2 (as amended): for every compiled template and every fragment list
    covering all its markers, [substitute] returns the directory prefix
    followed by [literal_blocks[0] ++ fragments[markers[0]-1] ++
    literal_blocks[1] ++ ...], unless that filename starts with ['/'], in
    which case [Path::join] discards the directory and returns the filename
    alone. *)
Theorem substitute_concatenation (fuel : nat) (tpl : str) (max_marker_index : nat)
  (t : DestinationPathTemplate) (fragments : list str)
  (H : compile fuel tpl max_marker_index = Some t)
  (Hcover : forall m, In m (markers t) -> m <= List.length fragments) :
  (is_absolute (spec_filename t fragments) = false ->
   substitute t fragments = Ret (directory t ++ spec_filename t fragments)) /\
  (is_absolute (spec_filename t fragments) = true ->
   substitute t fragments = Ret (spec_filename t fragments)).
Proof.
  destruct (compile_shape _ _ _ _ H) as (Hl & Hf & Hd).
  destruct t as [d ms [|b0 bs]]; simpl in Hl; [discriminate|]. injection Hl as Hl.
  cbn [markers directory] in *. unfold substitute, spec_filename.
  cbn [dlit_blocks markers directory index nth_error obind skipn].
  rewrite substitute_loop_ret; [cbn [obind] | auto |].
  2:{ apply Forall_forall. intros m Hm. split; [rewrite Forall_forall in Hf; apply Hf; exact Hm | auto]. }
  unfold path_join. split; intros Habs; rewrite Habs; [|reflexivity].
  destruct Hd as [->|[d' ->]]; [reflexivity|].
  rewrite last_error_snoc, ascii_eqb_refl. reflexivity.
Qed.

Lemma substitute_concatenation_witness :
  compile 10 (lit "dir/file_#2.#1") 2
    = Some (mkDPT (lit "dir/") [2; 1] [lit "file_"; lit "."; lit ""]) /\
  substitute (mkDPT (lit "dir/") [2; 1] [lit "file_"; lit "."; lit ""])
             [lit "meow"; lit "oink"] = Ret (lit "dir/file_oink.meow").
Proof.
  assert (Hc : compile 10 (lit "dir/file_#2.#1") 2
                 = Some (mkDPT (lit "dir/") [2; 1] [lit "file_"; lit "."; lit ""]))
    by (vm_compute; reflexivity).
  split; [exact Hc|].
  rewrite (proj1 (substitute_concatenation _ _ _ _ [lit "meow"; lit "oink"] Hc
                    ltac:(simpl; intros m [<-|[<-|[]]]; lia)) eq_refl).
  reflexivity.
Defined.

(** C2 counterexample: with the template ["dir/#1"] and the fragment
    ["/etc"] the result is ["/etc"], not the directory prefix followed by
    the filename (["dir//etc"]). *)
Lemma substitute_absolute_fragment :
  compile 10 (lit "dir/#1") 1 = Some (mkDPT (lit "dir/") [1] [lit ""; lit ""]) /\
  substitute (mkDPT (lit "dir/") [1] [lit ""; lit ""]) [lit "/etc"] = Ret (lit "/etc") /\
  lit "/etc" <> lit "dir/" ++ spec_filename (mkDPT (lit "dir/") [1] [lit ""; lit ""]) [lit "/etc"].
Proof. vm_compute. split; [reflexivity|]. split; [reflexivity|]. discriminate. Qed.

(** A loop state that steps back to itself after two iterations is never
    left: the loop does not terminate. *)
Lemma compile_loop_cycle max st1 st2 :
  compile_step max st1 = Some st2 -> compile_step max st2 = Some st1 ->
  forall fuel, compile_loop fuel max st1 = None /\ compile_loop fuel max st2 = None.
Proof.
  intros H1 H2 fuel. induction fuel as [|fuel [IH1 IH2]]; [split; reflexivity|].
  simpl. rewrite H1, H2. split; assumption.
Qed.

(** C3 (code bug): two sigils that start no marker in the same segment
    send the ['find_marker] loop into a cycle, because the resumption offset
    [hashtag_position + 1] is relative to the slice searched rather than to
    [filename_remainder].  On ["#a#b"] with [max_marker_index = 1], the spec's
    scan yields no marker and the single literal block ["#a#b"], whereas
    [compile] never returns. *)
Theorem compile_hash_literal_diverges :
  spec_compile_filename 10 (lit "#a#b") 1 = Some ([], [lit "#a#b"]) /\
  ~ (exists fuel t, compile fuel (lit "#a#b") 1 = Some t).
Proof.
  split; [vm_compute; reflexivity|].
  intros (fuel & t & H).
  set (st1 := mkC (lit "#a#b") 1 [] []). set (st2 := mkC (lit "#a#b") 2 [] []).
  assert (Hc := compile_loop_cycle 1 st1 st2 eq_refl eq_refl).
  destruct fuel as [|fuel]; [discriminate|].
  change (match compile_filename (S fuel) (lit "#a#b") 1 with
          | None => None
          | Some (ms, bs) => Some (mkDPT [] ms bs)
          end = Some t) in H.
  unfold compile_filename in H.
  change (compile_loop (S fuel) 1 (mkC (lit "#a#b") 0 [] []))
    with (compile_loop fuel 1 st1) in H.
  rewrite (proj1 (Hc fuel)) in H. discriminate.
Qed.

(** C7 counterexample: [GlobStarPattern::from] is total, but
    [compile("##", 0)] never returns: after the first sigil the loop
    resumes at offset 1, where it finds the second sigil at relative
    position 0 and resumes at offset 1 again, forever. *)
Lemma compile_double_hash_diverges :
  (forall s, exists p, glob_from s = p) /\
  ~ (exists fuel t, compile fuel (lit "##") 0 = Some t).
Proof.
  split; [intros s; eexists; reflexivity|].
  intros (fuel & t & H).
  set (st1 := mkC (lit "##") 1 [] []).
  assert (Hc := compile_loop_cycle 0 st1 st1 eq_refl eq_refl).
  destruct fuel as [|fuel]; [discriminate|].
  change (match compile_filename (S fuel) (lit "##") 0 with
          | None => None
          | Some (ms, bs) => Some (mkDPT [] ms bs)
          end = Some t) in H.
  unfold compile_filename in H.
  change (compile_loop (S fuel) 0 (mkC (lit "##") 0 [] []))
    with (compile_loop fuel 0 st1) in H.
  rewrite (proj1 (Hc fuel)) in H. discriminate.
Qed.

(** * Matching files *)

Lemma matching_entries_skip p dp es1 e es2 md acc :
  metadata e = Some md -> is_file md = true -> utf8_valid (file_name e) = false ->
  matching_entries p dp (es1 ++ Some e :: es2) acc = matching_entries p dp (es1 ++ es2) acc.
Proof.
  intros Hmd Hfile Hname. revert acc.
  induction es1 as [|[entry|] es1 IH]; intros acc; simpl.
  - rewrite Hmd, Hfile. unfold to_str. rewrite Hname. reflexivity.
  - destruct (metadata entry) as [md'|]; [|reflexivity].
    destruct (is_file md'); [|apply IH].
    destruct (to_str (file_name entry)); [|apply IH].
    destruct (match_string _ _) as [[info|]|]; cbn [obind]; [apply IH | apply IH | reflexivity].
  - reflexivity.
Qed.

(** C9: a directory entry that is a regular file (readable metadata) whose
    name is not valid UTF-8 is skipped without error: [matching_files]
    returns the same as on a listing without that entry. *)
Theorem matching_files_skips_non_utf8 (p : SourcePathPattern) (fs fs' : FileSystem)
  (working_directory : path) (es1 es2 : list (option DirEntry)) (e : DirEntry) (md : Metadata)
  (Hfs : fs (path_join working_directory (sdirectory p)) = Some (es1 ++ Some e :: es2))
  (Hfs' : fs' (path_join working_directory (sdirectory p)) = Some (es1 ++ es2))
  (Hmd : metadata e = Some md) (Hfile : is_file md = true)
  (Hname : utf8_valid (file_name e) = false) :
  matching_files p fs working_directory = matching_files p fs' working_directory.
Proof.
  unfold matching_files. rewrite Hfs, Hfs'. apply matching_entries_skip with md; assumption.
Qed.

(** The entry named by the single byte [0xFF] is a regular file that the
    pattern ["*"] matches byte-wise, yet the listing yields no result. *)
Lemma matching_files_skips_non_utf8_witness :
  match_string (glob_from (lit "*")) [ascii_of_nat 255] = Ret (Some [[ascii_of_nat 255]]) /\
  matching_files star_source_pattern (fun _ => Some [Some non_utf8_entry]) []
    = matching_files star_source_pattern (fun _ => Some []) [] /\
  matching_files star_source_pattern (fun _ => Some [Some non_utf8_entry]) [] = Ret (Ok []).
Proof.
  assert (H : matching_files star_source_pattern (fun _ => Some [Some non_utf8_entry]) []
              = matching_files star_source_pattern (fun _ => Some []) []).
  { apply (matching_files_skips_non_utf8 star_source_pattern (fun _ => Some [Some non_utf8_entry])
             (fun _ => Some []) [] [] [] non_utf8_entry (mkMeta true) eq_refl eq_refl eq_refl eq_refl).
    vm_compute. reflexivity. }
  split; [vm_compute; reflexivity|]. split; [exact H|].
  rewrite H. reflexivity.
Defined.

(** * Further properties of the glob patterns *)

Lemma split_length c s : List.length (split c s) = S (count_occ ascii_dec s c).
Proof.
  induction s as [|x s IH]; [reflexivity|]. simpl.
  pose proof (split_nonempty c s) as Hne.
  unfold ascii_eqb. destruct (ascii_dec x c).
  - simpl. rewrite IH. reflexivity.
  - destruct (split c s) as [|p ps]; [contradiction|]. simpl in *. exact IH.
Qed.

Lemma split_no_sep c b : ~ In c b -> split c b = [b].
Proof.
  induction b as [|x b IH]; intros Hb; [reflexivity|]. simpl.
  destruct (ascii_eqb x c) eqn:E.
  - apply ascii_eqb_true in E. subst. exfalso. apply Hb. left; reflexivity.
  - rewrite IH; [reflexivity | intros H; apply Hb; right; exact H].
Qed.

Lemma split_sep_app c b r : ~ In c b -> split c (b ++ c :: r) = b :: split c r.
Proof.
  induction b as [|x b IH]; intros Hb; simpl.
  - rewrite ascii_eqb_refl. reflexivity.
  - destruct (ascii_eqb x c) eqn:E.
    + apply ascii_eqb_true in E. subst. exfalso. apply Hb. left; reflexivity.
    + rewrite IH; [reflexivity | intros H; apply Hb; right; exact H].
Qed.

(** X1: the wildcard count of [GlobStarPattern::from(s)] is the number of
    ['*'] characters in [s]. *)
Theorem glob_from_wildcards_count (s : str) :
  wildcards_number (glob_from s) = Ret (count_occ ascii_dec s star).
Proof.
  unfold wildcards_number, glob_from. cbn [literal_blocks]. rewrite split_length. reflexivity.
Qed.

(** X2: every pattern accepted by [SourcePathPattern::from_str] has as many
    wildcards as ['*'] characters in the whole source string (none of them
    is in the directory part). *)
Theorem from_str_wildcards_count (s : str) (sp : SourcePathPattern)
  (H : from_str s = Ok sp) :
  spp_wildcards_number sp = Ret (count_occ ascii_dec s star).
Proof.
  unfold from_str in H. pose proof (split_last_slash_spec s) as (Heq & _ & _).
  destruct (split_last_slash s) as [d f]. simpl in Heq.
  destruct (contains star d) eqn:E; [discriminate|]. injection H as <-.
  unfold spp_wildcards_number, wildcards_number, glob_from. cbn [literal_blocks filename_pattern].
  rewrite split_length, Heq, count_occ_app.
  assert (Hd : count_occ ascii_dec d star = 0).
  { apply count_occ_not_In. rewrite <- contains_in, E. discriminate. }
  rewrite Hd. reflexivity.
Qed.

Lemma from_str_wildcards_count_witness :
  from_str (lit "rust/version-*.*") = Ok (mkSPP (lit "rust/") (glob_from (lit "version-*.*"))) /\
  spp_wildcards_number (mkSPP (lit "rust/") (glob_from (lit "version-*.*"))) = Ret 2.
Proof.
  assert (H : from_str (lit "rust/version-*.*")
              = Ok (mkSPP (lit "rust/") (glob_from (lit "version-*.*")))) by reflexivity.
  split; [exact H|]. rewrite (from_str_wildcards_count _ _ H). reflexivity.
Defined.

(** X3: a pattern without ['*'] matches exactly the string equal to it,
    with no captures; every other string is rejected without a panic. *)
Theorem glob_literal_match (s t : str) (H : ~ In star s) :
  (match_string (glob_from s) t = Ret (Some []) <-> t = s) /\
  (t <> s -> match_string (glob_from s) t = Ret None).
Proof.
  unfold glob_from. rewrite (split_no_sep _ _ H).
  unfold match_string, wildcards_number. cbn [literal_blocks index nth_error obind List.length Nat.eqb].
  destruct (strip_prefix s t) as [r|] eqn:E.
  - apply strip_prefix_app in E. subst t. destruct r as [|x r]; simpl.
    + rewrite app_nil_r. split; [split; reflexivity | intros Hne; contradiction].
    + split; [split; [discriminate|] | reflexivity].
      intros Heq. rewrite <- (app_nil_r s) in Heq at 2. apply app_inv_head in Heq. discriminate.
  - split; [split; [discriminate|] | reflexivity].
    intros ->. rewrite (proj2 (strip_prefix_app s s []) (eq_sym (app_nil_r s))) in E. discriminate.
Qed.

Lemma glob_literal_match_witness :
  ~ In star (lit "pattern") /\
  match_string (glob_from (lit "pattern")) (lit "patternjunk") = Ret None.
Proof.
  assert (H : ~ In star (lit "pattern")).
  { simpl. intros Hin. repeat destruct Hin as [Hin|Hin]; try discriminate; contradiction. }
  split; [exact H|]. apply (proj2 (glob_literal_match _ _ H)). discriminate.
Defined.

(** X4: compiling the [Display] of a pattern whose blocks contain no ['*']
    gives back the same pattern: [From] inverts [Display] on such
    patterns. *)
Theorem glob_from_display (bs : list str) (Hne : bs <> [])
  (Hstar : Forall (fun b => ~ In star b) bs) :
  glob_from (glob_display (mkGlob bs)) = mkGlob bs.
Proof.
  unfold glob_from, glob_display. cbn [literal_blocks]. f_equal.
  induction bs as [|b bs IH]; [contradiction|].
  inversion Hstar as [|? ? Hb Hbs]; subst.
  destruct bs as [|b' bs].
  - simpl. apply split_no_sep. exact Hb.
  - change (join [star] (b :: b' :: bs)) with (b ++ star :: join [star] (b' :: bs)).
    rewrite (split_sep_app star b (join [star] (b' :: bs)) Hb). rewrite IH; [reflexivity | discriminate | exact Hbs].
Qed.

Lemma glob_from_display_witness :
  [lit "IMG"; lit ":"; lit ".png"] <> [] /\
  Forall (fun b => ~ In star b) [lit "IMG"; lit ":"; lit ".png"] /\
  glob_from (glob_display (mkGlob [lit "IMG"; lit ":"; lit ".png"]))
    = mkGlob [lit "IMG"; lit ":"; lit ".png"].
Proof.
  assert (H : Forall (fun b => ~ In star b) [lit "IMG"; lit ":"; lit ".png"]).
  { repeat constructor; simpl; intros Hin; repeat destruct Hin as [Hin|Hin]; try discriminate; contradiction. }
  split; [discriminate|]. split; [exact H|].
  apply glob_from_display; [discriminate | exact H].
Defined.

(** * Further properties of the destination templates *)

Lemma first_marker_prefix max s k : first_marker max s = Some k -> is_prefix (dec k) s = true.
Proof.
  induction max as [|max IH]; simpl; [discriminate|].
  destruct (is_prefix (dec (S max)) s) eqn:E; [intros H; injection H as <-; exact E | exact IH].
Qed.

Lemma marker_text rem cur pos k max :
  find [hash] (skipn cur rem) = Some pos ->
  first_marker max (skipn (cur + pos + 1) rem) = Some k ->
  rem = firstn (cur + pos) rem ++ [hash] ++ dec k
        ++ skipn (cur + pos + List.length (dec k) + 1) rem.
Proof.
  intros F M.
  apply find_some in F as [F _]. rewrite skipn_skipn in F.
  apply is_prefix_app in F as [r1 R1]. simpl in R1.
  apply first_marker_prefix, is_prefix_app in M as [r2 R2].
  assert (E1 : skipn (cur + pos + 1) rem = r1).
  { replace (cur + pos + 1) with (1 + (pos + cur)) by lia. rewrite <- skipn_skipn, R1. reflexivity. }
  replace (cur + pos + List.length (dec k) + 1) with (List.length (dec k) + (cur + pos + 1)) by lia.
  rewrite <- skipn_skipn, R2, (proj2 (firstn_skipn_app _ _)).
  rewrite <- (firstn_skipn (cur + pos) rem) at 1. f_equal.
  rewrite Nat.add_comm, R1, <- E1, R2. reflexivity.
Qed.

Lemma template_text_cons b bs m ms :
  template_text (b :: bs) (m :: ms) = b ++ [hash] ++ dec m ++ template_text bs ms.
Proof. reflexivity. Qed.

Lemma template_text_snoc bs ms b r k :
  List.length bs = List.length ms ->
  template_text ((bs ++ [b]) ++ [r]) (ms ++ [k]) = template_text (bs ++ [b ++ [hash] ++ dec k ++ r]) ms.
Proof.
  revert ms; induction bs as [|b0 bs IH]; intros [|m ms] Hl; simpl in Hl; try discriminate.
  - simpl. rewrite ?app_assoc. reflexivity.
  - rewrite <- !app_comm_cons, !template_text_cons, IH by lia. reflexivity.
Qed.

Lemma compile_loop_text fuel max st st' :
  compile_inv max st -> compile_loop fuel max st = Some st' ->
  template_text (cblocks st' ++ [filename_remainder st']) (cmarkers st')
  = template_text (cblocks st ++ [filename_remainder st]) (cmarkers st).
Proof.
  revert st; induction fuel as [|fuel IH]; intros st Hinv; simpl; [discriminate|].
  destruct (compile_step max st) as [st1|] eqn:E.
  - intros H. rewrite (IH st1 (compile_step_inv _ _ _ Hinv E) H).
    destruct st as [rem cur ms bs]. unfold compile_step in E. cbn [filename_remainder
      current_offset_in_filename cmarkers cblocks] in *.
    destruct (find [hash] (skipn cur rem)) as [pos|] eqn:F; [|discriminate].
    destruct (first_marker max (skipn (cur + pos + 1) rem)) as [k|] eqn:M.
    + injection E as <-. cbn [filename_remainder cmarkers cblocks].
      rewrite template_text_snoc by (apply (proj1 Hinv)).
      rewrite <- (marker_text _ _ _ _ _ F M). reflexivity.
    + injection E as <-. reflexivity.
  - intros H'; injection H' as <-. reflexivity.
Qed.

Lemma compile_text fuel tpl max t :
  compile fuel tpl max = Some t ->
  directory t = fst (split_last_slash tpl) /\
  template_text (dlit_blocks t) (markers t) = snd (split_last_slash tpl).
Proof.
  unfold compile. destruct (split_last_slash tpl) as [d f]. unfold compile_filename.
  destruct (compile_loop fuel max (mkC f 0 [] [])) as [st|] eqn:E; [|discriminate].
  intros H; injection H as <-. cbn [directory dlit_blocks markers fst snd]. split; [reflexivity|].
  assert (Hi : compile_inv max (mkC f 0 [] [])) by (split; [reflexivity | constructor]).
  rewrite (compile_loop_text _ _ _ _ Hi E). reflexivity.
Qed.

(** X5: [compile] loses nothing: the directory followed by the literal
    blocks, each marker written back as ['#'] and its decimal index, is the
    template string. *)
Theorem compile_lossless (fuel : nat) (tpl : str) (max_marker_index : nat)
  (t : DestinationPathTemplate) (H : compile fuel tpl max_marker_index = Some t) :
  directory t ++ template_text (dlit_blocks t) (markers t) = tpl.
Proof.
  destruct (compile_text _ _ _ _ H) as [-> ->].
  symmetry. apply (proj1 (split_last_slash_spec tpl)).
Qed.

Lemma compile_lossless_witness :
  compile 20 (lit "/absolute/path/#20.#2") 20
    = Some (mkDPT (lit "/absolute/path/") [20; 2] [lit ""; lit "."; lit ""]) /\
  lit "/absolute/path/" ++ template_text [lit ""; lit "."; lit ""] [20; 2]
    = lit "/absolute/path/#20.#2".
Proof.
  assert (H : compile 20 (lit "/absolute/path/#20.#2") 20
              = Some (mkDPT (lit "/absolute/path/") [20; 2] [lit ""; lit "."; lit ""]))
    by (vm_compute; reflexivity).
  split; [exact H|]. exact (compile_lossless _ _ _ _ H).
Defined.

(** X6: the literal blocks of a compiled template never contain ['/']:
    only a fragment can bring a path separator into a substituted
    filename. *)
Theorem compile_blocks_slash_free (fuel : nat) (tpl : str) (max_marker_index : nat)
  (t : DestinationPathTemplate) (H : compile fuel tpl max_marker_index = Some t) :
  Forall (fun b => ~ In slash b) (dlit_blocks t).
Proof.
  destruct (compile_text _ _ _ _ H) as [_ Ht].
  pose proof (proj1 (proj2 (split_last_slash_spec tpl))) as Hf. rewrite <- Ht in Hf.
  destruct (compile_shape _ _ _ _ H) as [Hl _]. clear H Ht.
  apply Forall_forall. intros b Hb Hin. apply Hf. clear Hf.
  revert Hl Hb. generalize (markers t) as ms. induction (dlit_blocks t) as [|b0 bs IH];
    intros ms Hl Hb; [destruct Hb|].
  destruct ms as [|m ms]; simpl in Hl.
  - destruct bs; [|discriminate]. destruct Hb as [<-|[]]. exact Hin.
  - simpl. apply in_or_app. destruct Hb as [<-|Hb]; [left; exact Hin|].
    right. right. apply in_or_app. right. apply (IH ms); [lia | exact Hb].
Qed.

Lemma compile_blocks_slash_free_witness :
  compile 20 (lit "path/to/file_##1.#2") 5
    = Some (mkDPT (lit "path/to/") [1; 2] [lit "file_#"; lit "."; lit ""]) /\
  Forall (fun b => ~ In slash b) [lit "file_#"; lit "."; lit ""].
Proof.
  assert (H : compile 20 (lit "path/to/file_##1.#2") 5
              = Some (mkDPT (lit "path/to/") [1; 2] [lit "file_#"; lit "."; lit ""]))
    by (vm_compute; reflexivity).
  split; [exact H|]. exact (compile_blocks_slash_free _ _ _ _ H).
Defined.

(** * Further properties of [matching_files] *)

Lemma from_str_blocks s p : from_str s = Ok p -> literal_blocks (filename_pattern p) <> [].
Proof.
  unfold from_str. destruct (split_last_slash s) as [d f].
  destruct (contains star d); [discriminate|].
  intros H; injection H as <-. simpl. apply split_nonempty.
Qed.

Lemma match_string_length p s cs :
  match_string p s = Ret (Some cs) -> wildcards_number p = Ret (List.length cs).
Proof.
  destruct p as [[|b0 bs]]; [cbn; discriminate|].
  destruct bs as [|b1 bs].
  - unfold match_string, wildcards_number. cbn [literal_blocks index nth_error obind List.length].
    destruct (strip_prefix b0 s) as [t|]; cbn [obind Nat.eqb]; [|discriminate].
    destruct (is_empty t); [|discriminate]. intros H; injection H as <-. reflexivity.
  - destruct (exists_last (l := b1 :: bs) ltac:(discriminate)) as [mids [lb E]].
    rewrite E, match_string_multi.
    destruct (strip_prefix b0 s) as [t|]; [|discriminate].
    destruct (match_middle mids t) as [[res r]|] eqn:Hm; [|discriminate].
    destruct (strip_suffix lb r) as [c|]; [|discriminate].
    intros H; injection H as <-.
    unfold wildcards_number. cbn [literal_blocks List.length].
    rewrite !last_length, (match_middle_length _ _ _ _ Hm). reflexivity.
Qed.

Lemma matching_entries_no_panic p dp es acc :
  literal_blocks (filename_pattern p) <> [] -> matching_entries p dp es acc <> Panic.
Proof.
  intros Hne. destruct p as [d [[|b0 bs]]]; [contradiction|]. clear Hne.
  revert acc; induction es as [|[e|] es IH]; intros acc; simpl; try discriminate.
  destruct (metadata e) as [md|]; [|discriminate].
  destruct (is_file md); [|apply IH].
  destruct (to_str (file_name e)) as [nm|]; [|apply IH].
  destruct (match_string _ _) as [[info|]|] eqn:E; cbn [obind]; [apply IH | apply IH |].
  exfalso. exact (match_string_no_panic _ _ _ E).
Qed.

Lemma matching_files_no_panic_aux p fs wd :
  literal_blocks (filename_pattern p) <> [] -> matching_files p fs wd <> Panic.
Proof.
  intros Hne. unfold matching_files.
  destruct (fs _); [apply matching_entries_no_panic; exact Hne | discriminate].
Qed.

Lemma in_skip_entry p e es x cs :
  ~ matched_entry p e x cs ->
  ((exists e', In (Some e') (Some e :: es) /\ matched_entry p e' x cs) <->
   (exists e', In (Some e') es /\ matched_entry p e' x cs)).
Proof.
  intros Hn. split.
  - intros (e' & [Heq|Hin] & R); [injection Heq as ->; contradiction | exists e'; auto].
  - intros (e' & Hin & R). exists e'. split; [right; exact Hin | exact R].
Qed.

Lemma matching_entries_ok p dp es acc l :
  matching_entries p dp es acc = Ret (Ok l) ->
  forall x cs, In (x, cs) l <->
    In (x, cs) acc \/ exists e, In (Some e) es /\ matched_entry p e x cs.
Proof.
  revert acc; induction es as [|[e|] es IH]; intros acc; cbn [matching_entries].
  - intros H. injection H as <-. intros x cs. split.
    + intros Hin. left. exact Hin.
    + intros [Hin|(e & Hin & _)]; [exact Hin | destruct Hin].
  - intros H x cs.
    destruct (metadata e) as [md|] eqn:Hmd; [|discriminate].
    destruct (is_file md) eqn:Hf.
    + destruct (to_str (file_name e)) as [nm|] eqn:Hn.
      * unfold to_str in Hn. destruct (utf8_valid (file_name e)) eqn:Hv; [|discriminate].
        injection Hn as <-.
        destruct (match_string (filename_pattern p) (file_name e)) as [[info|]|] eqn:Hm;
          cbn [obind] in H; [| |discriminate].
        -- rewrite (IH _ H x cs), in_app_iff. split.
           ++ intros [[Hin|[Heq|[]]]|(e' & Hin & R)].
              ** left; exact Hin.
              ** injection Heq as <- <-. right. exists e. split; [left; reflexivity|].
                 exists md. auto.
              ** right. exists e'. split; [right; exact Hin | exact R].
           ++ intros [Hin|(e' & [Heq|Hin] & R)].
              ** left; left; exact Hin.
              ** injection Heq as <-. destruct R as (md' & _ & _ & _ & -> & Hm').
                 rewrite Hm in Hm'. injection Hm' as <-. left; right; left; reflexivity.
              ** right. exists e'. auto.
        -- rewrite (IH _ H x cs), in_skip_entry; [reflexivity|].
           intros (md' & _ & _ & _ & _ & Hm'). rewrite Hm in Hm'. discriminate.
      * rewrite (IH _ H x cs), in_skip_entry; [reflexivity|].
        intros (md' & _ & _ & Hv & _). unfold to_str in Hn. rewrite Hv in Hn. discriminate.
    + rewrite (IH _ H x cs), in_skip_entry; [reflexivity|].
      intros (md' & Hmd' & Hf' & _). rewrite Hmd in Hmd'. injection Hmd' as <-. congruence.
  - discriminate.
Qed.

Lemma matching_entries_err p dp es acc :
  literal_blocks (filename_pattern p) <> [] ->
  ((exists err, matching_entries p dp es acc = Ret (Err err)) <-> Exists failing_entry es).
Proof.
  intros Hne. revert acc; induction es as [|[e|] es IH]; intros acc; simpl.
  - split; [intros [err H]; discriminate | intros H; inversion H].
  - rewrite Exists_cons. unfold failing_entry at 1. destruct (metadata e) as [md|] eqn:Hmd.
    + assert (G : forall X : Prop, (Some md = None \/ X) <-> X)
        by (intros X; split; [intros [H|H]; [discriminate | exact H] | intros H; right; exact H]).
      rewrite G.
      destruct (is_file md); [|apply IH].
      destruct (to_str (file_name e)); [|apply IH].
      destruct (match_string _ _) as [[info|]|] eqn:Hm; cbn [obind]; [apply IH | apply IH |].
      exfalso. destruct p as [d [[|b0 bs]]]; [contradiction|].
      exact (match_string_no_panic _ _ _ Hm).
    + split; [intros _; left; reflexivity | intros _; eexists; reflexivity].
  - split; [intros _; apply Exists_cons_hd; exact I | intros _; eexists; reflexivity].
Qed.

Lemma matching_files_ok_aux p fs wd l :
  matching_files p fs wd = Ret (Ok l) ->
  exists es, fs (path_join wd (sdirectory p)) = Some es /\
    (forall x cs, In (x, cs) l <-> exists e, In (Some e) es /\ matched_entry p e x cs).
Proof.
  unfold matching_files. destruct (fs _) as [es|]; [|discriminate].
  intros H. exists es. split; [reflexivity|]. intros x cs.
  rewrite (matching_entries_ok _ _ _ _ _ H x cs).
  split; [intros [[]|R]; exact R | intros R; right; exact R].
Qed.

Lemma matching_files_counts_aux p fs wd l n :
  matching_files p fs wd = Ret (Ok l) -> spp_wildcards_number p = Ret n ->
  Forall (fun m => List.length (snd m) = n) l.
Proof.
  intros H Hn. destruct (matching_files_ok_aux _ _ _ _ H) as (es & _ & Hl).
  apply Forall_forall. intros [x cs] Hin. apply Hl in Hin as (e & _ & (md & _ & _ & _ & _ & Hm)).
  apply match_string_length in Hm. unfold spp_wildcards_number in Hn. rewrite Hm in Hn.
  injection Hn as <-. reflexivity.
Qed.

(** X7: [matching_files] of a pattern parsed by [from_str] never panics:
    it returns a (possibly empty) list or an error. *)
Theorem matching_files_no_panic (s : str) (p : SourcePathPattern) (fs : FileSystem)
  (working_directory : path) (H : from_str s = Ok p) :
  matching_files p fs working_directory <> Panic.
Proof. apply matching_files_no_panic_aux, (from_str_blocks s), H. Qed.

Lemma matching_files_no_panic_witness :
  from_str (lit "*.txt") = Ok txt_source_pattern /\
  matching_files txt_source_pattern txt_fs (lit "/home") <> Panic.
Proof.
  assert (H : from_str (lit "*.txt") = Ok txt_source_pattern) by (vm_compute; reflexivity).
  split; [exact H | exact (matching_files_no_panic _ _ txt_fs (lit "/home") H)].
Defined.

(** X8: for a pattern parsed by [from_str], [matching_files] fails exactly
    when the directory [working_directory.join(directory)] cannot be read or
    its listing contains an entry that cannot be read or whose metadata
    cannot be read; a listing failure anywhere, even after matches, is an
    error. *)
Theorem matching_files_errors (s : str) (p : SourcePathPattern) (fs : FileSystem)
  (working_directory : path) (H : from_str s = Ok p) :
  (exists err, matching_files p fs working_directory = Ret (Err err)) <->
  (fs (path_join working_directory (sdirectory p)) = None \/
   exists es, fs (path_join working_directory (sdirectory p)) = Some es /\ Exists failing_entry es).
Proof.
  pose proof (from_str_blocks _ _ H) as Hne. unfold matching_files.
  destruct (fs _) as [es|].
  - rewrite (matching_entries_err _ _ _ _ Hne). split.
    + intros Hx. right. exists es. auto.
    + intros [Hx|(es' & Hx & Hb)]; [discriminate | injection Hx as <-; exact Hb].
  - split; [intros _; left; reflexivity | intros _; eexists; reflexivity].
Qed.

Lemma matching_files_errors_witness :
  from_str (lit "*.txt") = Ok txt_source_pattern /\
  ((exists err, matching_files txt_source_pattern broken_fs (lit "/home") = Ret (Err err)) <->
   (broken_fs (path_join (lit "/home") (sdirectory txt_source_pattern)) = None \/
    exists es, broken_fs (path_join (lit "/home") (sdirectory txt_source_pattern)) = Some es /\
               Exists failing_entry es)).
Proof.
  assert (H : from_str (lit "*.txt") = Ok txt_source_pattern) by (vm_compute; reflexivity).
  split; [exact H | exact (matching_files_errors _ _ broken_fs (lit "/home") H)].
Defined.

(** X9: a successful [matching_files] lists exactly the entries of the
    directory that are regular files with a valid UTF-8 name matched by the
    filename pattern, each as the pattern's directory (not the working
    directory) joined with the name, with the pattern's captures. *)
Theorem matching_files_members (p : SourcePathPattern) (fs : FileSystem)
  (working_directory : path) (l : list (path * list str))
  (H : matching_files p fs working_directory = Ret (Ok l)) :
  exists es, fs (path_join working_directory (sdirectory p)) = Some es /\
    (forall x cs, In (x, cs) l <-> exists e, In (Some e) es /\ matched_entry p e x cs).
Proof. exact (matching_files_ok_aux _ _ _ _ H). Qed.

Lemma matching_files_members_witness :
  matching_files txt_source_pattern txt_fs (lit "/home") = Ret (Ok [(lit "a.txt", [lit "a"])]) /\
  exists es, txt_fs (path_join (lit "/home") (sdirectory txt_source_pattern)) = Some es /\
    (forall x cs, In (x, cs) [(lit "a.txt", [lit "a"])] <->
                  exists e, In (Some e) es /\ matched_entry txt_source_pattern e x cs).
Proof.
  assert (H : matching_files txt_source_pattern txt_fs (lit "/home")
              = Ret (Ok [(lit "a.txt", [lit "a"])])) by (vm_compute; reflexivity).
  split; [exact H | exact (matching_files_members _ _ _ _ H)].
Defined.

(** X10: every match returned by [matching_files] carries exactly
    [wildcards_number] fragments, one per ['*'] of the pattern. *)
Theorem matching_files_fragment_count (p : SourcePathPattern) (fs : FileSystem)
  (working_directory : path) (l : list (path * list str)) (n : nat)
  (H : matching_files p fs working_directory = Ret (Ok l))
  (Hn : spp_wildcards_number p = Ret n) :
  Forall (fun m => List.length (snd m) = n) l.
Proof. exact (matching_files_counts_aux _ _ _ _ _ H Hn). Qed.

Lemma matching_files_fragment_count_witness :
  matching_files txt_source_pattern txt_fs (lit "/home") = Ret (Ok [(lit "a.txt", [lit "a"])]) /\
  spp_wildcards_number txt_source_pattern = Ret 1 /\
  Forall (fun m => List.length (snd m) = 1) [(lit "a.txt", [lit "a"])].
Proof.
  assert (H : matching_files txt_source_pattern txt_fs (lit "/home")
              = Ret (Ok [(lit "a.txt", [lit "a"])])) by (vm_compute; reflexivity).
  assert (Hn : spp_wildcards_number txt_source_pattern = Ret 1) by (vm_compute; reflexivity).
  split; [exact H | split; [exact Hn | exact (matching_files_fragment_count _ _ _ _ _ H Hn)]].
Defined.

(** * Further properties of [compile] and of [main] *)

Lemma find_hash_absent s : ~ In hash s -> find [hash] s = None.
Proof.
  induction s as [|x s IH]; intros Hs; [reflexivity|]. simpl.
  destruct (ascii_eqb hash x) eqn:E.
  - apply ascii_eqb_true in E. subst. exfalso; apply Hs; left; reflexivity.
  - simpl. rewrite IH; [reflexivity | intros H; apply Hs; right; exact H].
Qed.

(** X11: a destination template whose filename part has no ['#'] compiles
    in one loop test to no markers and the whole filename as its only
    literal block; [compile] then terminates for every [max_marker_index]. *)
Theorem compile_without_hash (fuel : nat) (tpl : str) (max_marker_index : nat)
  (H : ~ In hash (snd (split_last_slash tpl))) :
  compile (S fuel) tpl max_marker_index
  = Some (mkDPT (fst (split_last_slash tpl)) [] [snd (split_last_slash tpl)]).
Proof.
  unfold compile. destruct (split_last_slash tpl) as [d f]. cbn [fst snd] in H |- *.
  unfold compile_filename. cbn [compile_loop]. unfold compile_step.
  cbn [filename_remainder current_offset_in_filename skipn].
  rewrite find_hash_absent by exact H. reflexivity.
Qed.

Lemma compile_without_hash_witness :
  ~ In hash (snd (split_last_slash (lit "photos/2023_summer.jpg"))) /\
  compile 1 (lit "photos/2023_summer.jpg") 3
    = Some (mkDPT (lit "photos/") [] [lit "2023_summer.jpg"]).
Proof.
  assert (H : ~ In hash (snd (split_last_slash (lit "photos/2023_summer.jpg")))).
  { intros Hin. vm_compute in Hin. repeat (destruct Hin as [Hin|Hin]; [discriminate Hin|]). exact Hin. }
  split; [exact H | exact (compile_without_hash 0 _ 3 H)].
Defined.

Lemma map_outcome_ret {A B} (f : A -> outcome B) (l : list A) :
  (forall x, In x l -> f x <> Panic) ->
  exists ys, map_outcome f l = Ret ys /\ Forall2 (fun x y => f x = Ret y) l ys.
Proof.
  induction l as [|x l IH]; intros Hf; simpl.
  - exists []. split; [reflexivity | constructor].
  - destruct (f x) as [y|] eqn:E; [|exfalso; apply (Hf x); [left; reflexivity | exact E]].
    destruct IH as [ys [Hys H2]]; [intros z Hz; apply Hf; right; exact Hz|].
    exists (y :: ys). cbn [obind]. rewrite Hys. cbn [obind].
    split; [reflexivity | constructor; assumption].
Qed.

Lemma substitute_in_range t fr :
  List.length (dlit_blocks t) = S (List.length (markers t)) ->
  Forall (fun m => 1 <= m <= List.length fr) (markers t) ->
  substitute t fr <> Panic.
Proof.
  destruct t as [d ms [|b0 bs]]; cbn [dlit_blocks markers List.length]; intros Hl Hf; [discriminate|].
  unfold substitute. cbn [dlit_blocks markers directory index nth_error obind skipn].
  rewrite (substitute_loop_ret ms bs fr b0) by (lia || exact Hf). cbn [obind]. discriminate.
Qed.

Lemma main_pairs_ret t l n :
  List.length (dlit_blocks t) = S (List.length (markers t)) ->
  Forall (fun m => 1 <= m <= n) (markers t) ->
  Forall (fun m => List.length (snd m) = n) l ->
  exists calc,
    map_outcome (fun m : path * list str => destination <- substitute t (snd m) ;; Ret (fst m, destination)) l
      = Ret calc /\
    Forall2 (fun m c => fst c = fst m /\ substitute t (snd m) = Ret (snd c)) l calc.
Proof.
  intros Hl Hf Hc.
  destruct (map_outcome_ret (fun m : path * list str => destination <- substitute t (snd m) ;; Ret (fst m, destination)) l)
    as [calc [Hcalc H2]].
  - intros [x cs] Hin. cbn [fst snd].
    assert (Hs : substitute t cs <> Panic).
    { apply substitute_in_range; [exact Hl|].
      rewrite Forall_forall in Hc. specialize (Hc _ Hin). cbn [snd] in Hc. rewrite Hc. exact Hf. }
    destruct (substitute t cs); cbn [obind]; [discriminate | contradiction].
  - exists calc. split; [exact Hcalc|].
    revert H2. apply Forall2_impl. intros [x cs] c E. cbn [fst snd] in E |- *.
    destruct (substitute t cs) as [dst|]; cbn [obind] in E; [|discriminate].
    injection E as <-. auto.
Qed.

(** X13: when the wildcard count fits in [u8], [compile] returns and
    [matching_files] succeeds, [main] pairs every match, in order, with its
    substituted destination ([substitute] returning normally each time), and
    bails out with "No files matching" exactly when there is no match. *)
Theorem main_plan_pairs (fuel : nat) (source_pattern : SourcePathPattern)
  (destination_template : str) (fs : FileSystem) (current_dir : path)
  (n : nat) (t : DestinationPathTemplate) (l : list (path * list str))
  (Hn : spp_wildcards_number source_pattern = Ret n) (Hmax : n <= 255)
  (Ht : compile fuel destination_template n = Some t)
  (Hm : matching_files source_pattern fs current_dir = Ret (Ok l)) :
  exists calc,
    Forall2 (fun m c => fst c = fst m /\ substitute t (snd m) = Ret (snd c)) l calc /\
    main_plan fuel source_pattern destination_template fs current_dir
      = Ret (Some (if is_empty_list l then Err NoMatchingFiles else Ok calc)).
Proof.
  unfold main_plan. rewrite Hn. cbn [obind].
  replace (255 <? n) with false by (symmetry; apply Nat.ltb_ge; lia).
  rewrite Ht, Hm. cbn [obind].
  destruct (compile_shape _ _ _ _ Ht) as (Hl & Hf & _).
  destruct (main_pairs_ret t l n Hl Hf (matching_files_counts_aux _ _ _ _ _ Hm Hn)) as [calc [Hc H2]].
  rewrite Hc. cbn [obind]. exists calc. split; [exact H2|].
  destruct H2; reflexivity.
Qed.

Lemma main_plan_pairs_witness :
  spp_wildcards_number txt_source_pattern = Ret 1 /\ 1 <= 255 /\
  compile 10 (lit "#1.md") 1 = Some (mkDPT [] [1] [lit ""; lit ".md"]) /\
  matching_files txt_source_pattern txt_fs (lit "/home") = Ret (Ok [(lit "a.txt", [lit "a"])]) /\
  exists calc,
    Forall2 (fun m c => fst c = fst m /\ substitute (mkDPT [] [1] [lit ""; lit ".md"]) (snd m) = Ret (snd c))
      [(lit "a.txt", [lit "a"])] calc /\
    main_plan 10 txt_source_pattern (lit "#1.md") txt_fs (lit "/home")
      = Ret (Some (if is_empty_list [(lit "a.txt", [lit "a"])] then Err NoMatchingFiles else Ok calc)).
Proof.
  assert (Hn : spp_wildcards_number txt_source_pattern = Ret 1) by (vm_compute; reflexivity).
  assert (Ht : compile 10 (lit "#1.md") 1 = Some (mkDPT [] [1] [lit ""; lit ".md"]))
    by (vm_compute; reflexivity).
  assert (Hm : matching_files txt_source_pattern txt_fs (lit "/home")
               = Ret (Ok [(lit "a.txt", [lit "a"])])) by (vm_compute; reflexivity).
  split; [exact Hn|]. split; [lia|]. split; [exact Ht|]. split; [exact Hm|].
  exact (main_plan_pairs _ _ _ _ _ _ _ _ Hn ltac:(lia) Ht Hm).
Defined.


